(** * Extraction engine of the [bdic] command-line dictionary client

    A shallow embedding of [cli.js]: the transport-error describer [text],
    the page-shape dispatch of [searchWord] and the extractors
    [client_def_hd_hd], [client_trans_head], [client_do_you_mean_title_bar]
    and [handle_youdao], over a model of the parsed markup tree that the
    program queries and mutates through cheerio. *)

From Stdlib Require Import ZArith NArith Ascii Lia.
From stdpp Require Import base list strings gmap.

Set Warnings "-register-all".

Open Scope string_scope.
Open Scope list_scope.

(** ** JavaScript strings

    A JavaScript string is a sequence of UTF-16 code units.  Property names
    of the record stay Rocq strings; every text the program reads from a page
    is a [jsstring]. *)

Abbreviation jsstring := (list N).

(** An ASCII literal of the source, as code units. *)
Fixpoint js (s : string) : jsstring :=
  match s with
  | EmptyString => []
  | String a r => N_of_ascii a :: js r
  end.

(** The class [\s] of a JavaScript regular expression, which is also the set
    [String.prototype.trim] strips: WhiteSpace and LineTerminator. *)
Definition js_space (c : N) : bool :=
  match c with
  | 9 | 10 | 11 | 12 | 13 | 32 | 160 | 5760
  | 8192 | 8193 | 8194 | 8195 | 8196 | 8197 | 8198 | 8199 | 8200 | 8201 | 8202
  | 8232 | 8233 | 8239 | 8287 | 12288 | 65279 => true
  | _ => false
  end%N.

(** The class [\d]. *)
Definition js_digit (c : N) : bool := ((48 <=? c) && (c <=? 57))%N.

Definition SPACE : N := 32%N.

(** [s.replace(/\s+/g, ' ')]: [in_run] tells that the previous code unit was
    white space, whose run has already been replaced. *)
Fixpoint replace_runs (in_run : bool) (s : jsstring) : jsstring :=
  match s with
  | [] => []
  | c :: r =>
      if js_space c
      then (if in_run then replace_runs true r else SPACE :: replace_runs true r)
      else c :: replace_runs false r
  end.

Definition replace_spaces (s : jsstring) : jsstring := replace_runs false s.

Fixpoint trim_start (s : jsstring) : jsstring :=
  match s with
  | [] => []
  | c :: r => if js_space c then trim_start r else s
  end.

Fixpoint trim_end (s : jsstring) : jsstring :=
  match s with
  | [] => []
  | c :: r =>
      match trim_end r with
      | [] => if js_space c then [] else [c]
      | r' => c :: r'
      end
  end.

(** [s.trim()] *)
Definition trim (s : jsstring) : jsstring := trim_end (trim_start s).

(** [s.replace(/\s+/g, ' ').trim()], the normalizer of [handle_youdao]. *)
Definition normalize (s : jsstring) : jsstring := trim (replace_spaces s).

(** [s.match(/\d+/)]: the first maximal run of digits, [None] for [null]. *)
Fixpoint take_digits (s : jsstring) : jsstring :=
  match s with
  | c :: r => if js_digit c then c :: take_digits r else []
  | [] => []
  end.

Fixpoint match_digits (s : jsstring) : option jsstring :=
  match s with
  | [] => None
  | c :: r => if js_digit c then Some (c :: take_digits r) else match_digits r
  end.

(** [s.startsWith(p)] *)
Fixpoint startsWith (p s : jsstring) : bool :=
  match p, s with
  | [], _ => true
  | a :: p', b :: s' => (a =? b)%N && startsWith p' s'
  | _ :: _, [] => false
  end.

(** [a.join(sep)] on an array of strings. *)
Fixpoint join (sep : jsstring) (a : list jsstring) : jsstring :=
  match a with
  | [] => []
  | [x] => x
  | x :: r => x ++ sep ++ join sep r
  end.

(** Truthiness of a string: [(i, e) => e]. *)
Definition nonempty (s : jsstring) : bool :=
  match s with [] => false | _ => true end.

(** The numeric value of a string of decimal digits ([ToNumber]). *)
Definition digits_value (s : jsstring) : Z :=
  fold_left (fun acc c => (10 * acc + (Z.of_N c - 48))%Z) s 0%Z.

(** A string is [collapsed] when its only white space is single spaces. *)
Fixpoint collapsed (s : jsstring) : Prop :=
  match s with
  | [] => True
  | c :: r =>
      (js_space c = true →
       c = SPACE ∧ match r with c' :: _ => js_space c' = false | [] => True end)
      ∧ collapsed r
  end.

(** ** The markup tree

    [dom] is what the parser produces and the serializer reads.  A [node] is
    a [dom] node living in the program's memory: it carries the identity
    ([id]) under which cheerio collections refer to it. *)

Inductive dom :=
| DText (data : jsstring)
| DElem (name : jsstring) (attribs : list (jsstring * jsstring)) (children : list dom).

Abbreviation ref := nat.

Inductive node :=
| Text (id : ref) (data : jsstring)
| Elem (id : ref) (name : jsstring) (attribs : list (jsstring * jsstring))
       (children : list node).

Definition node_id (n : node) : ref :=
  match n with Text i _ | Elem i _ _ _ => i end.

Definition node_children (n : node) : list node :=
  match n with Text _ _ => [] | Elem _ _ _ ch => ch end.

Definition node_attribs (n : node) : list (jsstring * jsstring) :=
  match n with Text _ _ => [] | Elem _ _ a _ => a end.

(** Allocation of a parsed tree: nodes are numbered in document order from
    the first free identity on. *)
Fixpoint label (d : dom) (k : ref) : node * ref :=
  match d with
  | DText s => (Text k s, S k)
  | DElem t a ch =>
      let '(ch', k') :=
        (fix go (l : list dom) (k : ref) : list node * ref :=
           match l with
           | [] => ([], k)
           | x :: r =>
               let '(x', k1) := label x k in
               let '(r', k2) := go r k1 in (x' :: r', k2)
           end) ch (S k) in
      (Elem k t a ch', k')
  end.

Fixpoint label_all (l : list dom) (k : ref) : list node * ref :=
  match l with
  | [] => ([], k)
  | x :: r =>
      let '(x', k1) := label x k in
      let '(r', k2) := label_all r k1 in (x' :: r', k2)
  end.

Fixpoint erase (n : node) : dom :=
  match n with
  | Text _ s => DText s
  | Elem _ t a ch => DElem t a (map erase ch)
  end.

(** Concatenated text of the descendants. *)
Fixpoint text_of (n : node) : jsstring :=
  match n with
  | Text _ s => s
  | Elem _ _ _ ch => concat (map text_of ch)
  end.

Fixpoint assoc (k : jsstring) (l : list (jsstring * jsstring)) : option jsstring :=
  match l with
  | [] => None
  | (k', v) :: r => if bool_decide (k = k') then Some v else assoc k r
  end.

(** ** Selectors

    The program uses class, id and tag selectors, chains of them under the
    descendant combinator, and comma-separated alternatives. *)

Inductive simple :=
| Class (c : jsstring)
| Id (i : jsstring)
| Tag (t : jsstring).

(** A chain [a b c], outermost first. *)
Abbreviation chain := (list simple).

(** Alternatives [x, y, z]. *)
Abbreviation selector := (list chain).

(** The white-space separated words of a class attribute. *)
Fixpoint words_from (cur : jsstring) (s : jsstring) : list jsstring :=
  match s with
  | [] => [reverse cur]
  | c :: r => if js_space c then reverse cur :: words_from [] r
              else words_from (c :: cur) r
  end.

Definition has_class (c v : jsstring) : bool :=
  existsb (λ w, bool_decide (w = c)) (words_from [] v).

Definition matches (s : simple) (n : node) : bool :=
  match n with
  | Text _ _ => false
  | Elem _ name a _ =>
      match s with
      | Class c => match assoc (js "class") a with
                   | Some v => has_class c v
                   | None => false
                   end
      | Id i => bool_decide (assoc (js "id") a = Some i)
      | Tag t => bool_decide (name = t)
      end
  end.

(** What is left of a chain below [n]: its first link is consumed by the
    first ancestor that matches it. *)
Definition advance (n : node) (p : chain) : chain :=
  match p with
  | s :: (_ :: _) as rest => if matches s n then rest else p
  | _ => p
  end.

(** [n] is selected by a chain when only the last link is left and it
    matches. *)
Definition hits (n : node) (p : chain) : bool :=
  match p with
  | [s] => matches s n
  | _ => false
  end.

(** The elements of the subtree [n] that a selector selects, in document
    order. *)
Fixpoint select (ps : selector) (n : node) : list ref :=
  match n with
  | Text _ _ => []
  | Elem i _ _ ch =>
      (if existsb (hits n) ps then [i] else [])
        ++ concat (map (select (map (advance n) ps)) ch)
  end.

Definition select_all (ps : selector) (l : list node) : list ref :=
  concat (map (select ps) l).

(** ** Memory

    The parsed page is mutable: [replaceWith] cuts a node out of its parent
    and puts new nodes in its place.  A node that was cut out stays alive as
    long as a collection refers to it, so the memory is a forest: the
    children of the document root, and the roots of the subtrees that were
    cut out (these have no parent). *)

Record heap := Heap {
  document : list node;
  detached : list node;
  next_id : ref
}.

Fixpoint locate (i : ref) (n : node) : option node :=
  if (node_id n =? i)%nat then Some n
  else match n with
       | Text _ _ => None
       | Elem _ _ _ ch =>
           foldr (λ x acc, match locate i x with Some y => Some y | None => acc end)
                 None ch
       end.

Definition locate_in (i : ref) (l : list node) : option node :=
  foldr (λ x acc, match locate i x with Some y => Some y | None => acc end) None l.

Definition node_of (i : ref) (h : heap) : option node :=
  locate_in i (document h ++ detached h).

Definition is_some {A} (o : option A) : bool :=
  match o with Some _ => true | None => false end.

(** [el.parent] is not null. *)
Definition has_parent (i : ref) (h : heap) : bool :=
  is_some (locate_in i (document h))
  || existsb (λ r, is_some (locate_in i (node_children r))) (detached h).

Fixpoint replace_node (i : ref) (new : list node) (n : node) : list node :=
  if (node_id n =? i)%nat then new
  else match n with
       | Text _ _ => [n]
       | Elem j t a ch => [Elem j t a (concat (map (replace_node i new) ch))]
       end.

Definition replace_in (i : ref) (new : list node) (l : list node) : list node :=
  concat (map (replace_node i new) l).

Definition replace_below (i : ref) (new : list node) (n : node) : node :=
  match n with
  | Text _ _ => n
  | Elem j t a ch => Elem j t a (replace_in i new ch)
  end.

(** The memory right after [cheerio.load], when [k] is the first identity
    that is free.  Every run of the program parses its page anew. *)
Definition boot_from (k : ref) (page : list dom) : heap :=
  let r := label_all page k in Heap r.1 [] r.2.

Definition boot (page : list dom) : heap := boot_from 0 page.

(** ** Libraries the program calls

    The markup parser and serializer behind cheerio and the colouring
    functions of chalk are not part of the program. *)

Class Lib := {
  load : jsstring → list dom;        (* cheerio.load(text): the page's tree *)
  parse : jsstring → list dom;       (* the nodes of a markup fragment *)
  serialize : list dom → jsstring;   (* the markup of a list of nodes *)
  red : jsstring → jsstring;         (* chalk.red *)
  cyan : jsstring → jsstring;        (* chalk.cyan *)
  dim : jsstring → jsstring          (* chalk.dim *)
}.

(** ** Computations on the memory *)

Definition M (A : Type) : Type := heap → A * heap.

#[global] Instance M_ret : MRet M := λ A a h, (a, h).
#[global] Instance M_bind : MBind M := λ A B f m h, let r := m h in f r.1 r.2.

Definition gets {A} (f : heap → A) : M A := λ h, (f h, h).

Definition run {A} (m : M A) (h : heap) : A := (m h).1.

(** ** The part of cheerio the program uses

    A collection of elements is the list of their identities, in document
    order; the methods read and update the memory. *)

Module Cheerio.
Section methods.
Context `{Lib}.

(** [$(selector)]: the matching elements of the document. *)
Definition query (s : selector) : M (list ref) :=
  gets (λ h, select_all s (document h)).

(** [$(el).find(selector)]: the matching descendants of [el]; a chain is
    matched below [el]. *)
Definition find (s : selector) (el : ref) : M (list ref) :=
  gets (λ h, match node_of el h with
             | Some n => select_all s (node_children n)
             | None => []
             end).

(** [.text()]: the texts of the elements of the collection, concatenated. *)
Definition text (els : list ref) : M jsstring :=
  gets (λ h, concat (List.map (λ el, match node_of el h with
                                | Some n => text_of n
                                | None => []
                                end) els)).

(** [.html()]: the markup inside the first element, [None] (null) for an
    empty collection. *)
Definition html (els : list ref) : M (option jsstring) :=
  gets (λ h, match els with
             | [] => None
             | el :: _ => n ← node_of el h;
                          Some (serialize (List.map erase (node_children n)))
             end).

(** [.attr(name)]: the attribute of the first element, [None] (undefined)
    when there is none. *)
Definition attr (name : jsstring) (els : list ref) : M (option jsstring) :=
  gets (λ h, match els with
             | [] => None
             | el :: _ => n ← node_of el h; assoc name (node_attribs n)
             end).

(** [.each(fn)] *)
Fixpoint each {A} (fn : A → M unit) (els : list A) : M unit :=
  match els with
  | [] => mret tt
  | el :: r => fn el;; each fn r
  end.

(** [.map(fn)], for a callback that returns neither null nor an array. *)
Fixpoint map {A B} (fn : A → M B) (els : list A) : M (list B) :=
  match els with
  | [] => mret []
  | el :: r => x ← fn el; xs ← map fn r; mret (x :: xs)
  end.

(** [.filter(fn)] *)
Fixpoint filter {A} (fn : A → M bool) (els : list A) : M (list A) :=
  match els with
  | [] => mret []
  | el :: r => b ← fn el; xs ← filter fn r; mret (if b : bool then el :: xs else xs)
  end.

(** One step of [replaceWith]: the parsed [content] takes the place of [el]
    among its siblings, and [el] is left without a parent. *)
Definition put_in_place (el : ref) (content : jsstring) : M unit :=
  λ h, match node_of el h with
       | Some old =>
           let new := label_all (parse content) (next_id h) in
           (tt, {| document := replace_in el new.1 (document h);
                   detached := List.map (replace_below el new.1) (detached h) ++ [old];
                   next_id := new.2 |})
       | None => (tt, h)
       end.

(** [.replaceWith(fn)]: elements without a parent are skipped, the others
    are replaced one after the other by what [fn] makes of them. *)
Definition replaceWith (fn : ref → M jsstring) (els : list ref) : M unit :=
  each (λ el, p ← gets (has_parent el);
              if p : bool then content ← fn el; put_in_place el content
              else mret tt) els.

End methods.
End Cheerio.

(** ** Selectors as the program writes them *)

Fixpoint split_at (sep : ascii) (s : string) : list string :=
  match s with
  | EmptyString => [EmptyString]
  | String c r =>
      if Ascii.eqb c sep then EmptyString :: split_at sep r
      else match split_at sep r with
           | x :: t => String c x :: t
           | [] => [String c EmptyString]
           end
  end.

Definition simple_of (w : string) : simple :=
  match w with
  | String "." r => Class (js r)
  | String "#" r => Id (js r)
  | _ => Tag (js w)
  end.

Definition chain_of (s : string) : chain :=
  List.map simple_of (List.filter (λ w, negb (String.eqb w "")) (split_at " " s)).

Definition sel (s : string) : selector := List.map chain_of (split_at "," s).

(** ** The record

    [result] is a JavaScript object; its properties hold strings, numbers,
    null, sequences and plain objects. *)

Inductive value :=
| VNull
| VNum (n : Z)
| VStr (s : jsstring)
| VArr (items : list value)
| VObj (fields : list (string * value)).

Abbreviation record := (gmap string value).

(** ToBoolean of a property ([None]: the property is undefined). *)
Definition truthy (v : option value) : bool :=
  match v with
  | None | Some VNull => false
  | Some (VNum n) => negb (n =? 0)%Z
  | Some (VStr s) => nonempty s
  | Some (VArr _) | Some (VObj _) => true
  end.

(** ToNumber, where the program relies on it ([repeat(result.stars)]). *)
Definition to_number (v : value) : option Z :=
  match v with
  | VNum n => Some n
  | VStr s => if forallb js_digit s then Some (digits_value s) else None
  | _ => None
  end.

Definition of_null (o : option jsstring) : value :=
  match o with Some s => VStr s | None => VNull end.

(** [result.defs.push(v)] *)
Definition push (k : string) (v : value) (result : record) : record :=
  match result !! k with
  | Some (VArr l) => <[k := VArr (l ++ [v])]> result
  | _ => result
  end.

Record Response := {
  ok : bool;
  body : jsstring;            (* await response.text() *)
  statusText : jsstring
}.

(** A call either ends the process ([process.exit] after a line on the
    error stream) or returns. *)
Inductive outcome (A : Type) :=
| Exit (stderr : jsstring) (code : Z)
| Return (a : A).
Arguments Exit {A} stderr code.
Arguments Return {A} a.

(** ** The program *)

Section program.
Context `{Lib}.

(** [text(response)], lines 21-36. *)
Definition text (response : Response) : outcome jsstring :=
  if negb (ok response) then
    let message := body response in
    let message :=
      if startsWith (js "<!") message then
        let sc_error :=
          run (Cheerio.query (sel ".sc_error") ≫= Cheerio.text)
              (boot (load message)) in
        if nonempty sc_error then sc_error else message
      else message in
    Exit (red (if nonempty message then message else statusText response)) 1
  else Return (body response).

(** The callback of [sens.map], lines 196-208. *)
Definition sentence_item (el : ref) : M value :=
  words ← Cheerio.find
    (sel ".client_sen_en_word, .client_sen_cn_word, .client_sen_word") el;
  Cheerio.replaceWith (λ el, Cheerio.text [el]) words;;
  found ← Cheerio.find (sel ".client_sentence_search") el;
  Cheerio.replaceWith (λ el, t ← Cheerio.text [el]; mret (cyan t)) found;;
  en ← Cheerio.find (sel ".client_sen_en") el ≫= Cheerio.html;
  chs ← Cheerio.find (sel ".client_sen_cn") el ≫= Cheerio.html;
  source ← Cheerio.find (sel ".client_sentence_list_link") el ≫= Cheerio.text;
  mret (VObj [("en", of_null en); ("chs", of_null chs); ("source", VStr source)]).

(** The three steps that make [cdef] of the definition bars, lines 170-175. *)
Definition no_word_tag (el : ref) : M bool :=
  tags ← Cheerio.find (sel ".client_def_list_word_Tag") el;
  mret (length tags =? 0)%nat.

Definition pos_def (el : ref) : M (jsstring * jsstring) :=
  pos ← Cheerio.find (sel ".client_def_title_bar") el ≫= Cheerio.text;
  def ← Cheerio.find (sel ".client_def_list") el ≫= Cheerio.text;
  mret (pos, def).

Definition pos_and_def (e : jsstring * jsstring) : bool :=
  nonempty e.1 && nonempty e.2.

Definition cdef_entry (e : jsstring * jsstring) : value :=
  VObj [("pos", VStr e.1); ("def", VStr e.2)].

(** Lines 155-165. *)
Definition set_phsym (result : record) : M record :=
  prons ← Cheerio.query (sel ".client_def_hd_pn_list");
  if (0 <? length prons)%nat then
    items ← Cheerio.map
      (λ el, Cheerio.find (sel ".client_def_hd_pn") el ≫= Cheerio.text) prons;
    let phsym := join [] (List.filter nonempty items) in
    let result := <["phsym" := VStr phsym]> result in
    mret (if (length phsym =? 0)%nat then delete "phsym" result else result)
  else mret result.

(** Lines 167-179. *)
Definition set_cdef (result : record) : M record :=
  defs ← Cheerio.query (sel ".client_def_container .client_def_bar");
  if (0 <? length defs)%nat then
    bars ← Cheerio.filter no_word_tag defs;
    pairs ← Cheerio.map pos_def bars;
    let cdef := List.filter pos_and_def pairs in
    let result := <["cdef" := VArr (List.map cdef_entry cdef)]> result in
    mret (if (length cdef =? 0)%nat then delete "cdef" result else result)
  else mret result.

(** Lines 181-191. *)
Definition set_infs (result : record) : M record :=
  infs ← Cheerio.query (sel ".client_word_change_word");
  if (0 <? length infs)%nat then
    items ← Cheerio.map (λ el, t ← Cheerio.text [el]; mret (trim t)) infs;
    let infs := join (js ", ") (List.filter nonempty items) in
    let result := <["infs" := VStr infs]> result in
    mret (if (length infs =? 0)%nat then delete "infs" result else result)
  else mret result.

(** Lines 193-210. *)
Definition set_sentences (result : record) : M record :=
  sens ← Cheerio.query (sel ".client_sentence_list");
  if (0 <? length sens)%nat then
    items ← Cheerio.map sentence_item sens;
    mret (<["sentences" := VArr (take 4 items)]> result)
  else mret result.

(** [client_def_hd_hd($, result)], lines 152-213. *)
Definition client_def_hd_hd (result : record) : M record :=
  title ← Cheerio.query (sel ".client_def_hd_hd") ≫= Cheerio.text;
  let result := <["title" := VStr title]> result in
  result ← set_phsym result;
  result ← set_cdef result;
  result ← set_infs result;
  result ← set_sentences result;
  mret result.

(** [client_trans_head($, result)], lines 215-218. *)
Definition client_trans_head (result : record) : M record :=
  mt ← Cheerio.query (sel ".client_sen_cn") ≫= Cheerio.text;
  mret (<["mt" := VStr mt]> result).

(** The callback of [defs.map], lines 229-232. *)
Definition meaning (el : ref) : M value :=
  word ← Cheerio.find (sel ".client_do_you_mean_list_word") el ≫= Cheerio.text;
  def ← Cheerio.find (sel ".client_do_you_mean_list_def") el ≫= Cheerio.text;
  mret (VObj [("word", VStr word); ("def", VStr def)]).

(** The callback of [each] over the suggestion areas, lines 224-235. *)
Definition suggestion_area (result : record) (area : ref) : M record :=
  defs ← Cheerio.find (sel ".client_do_you_mean_list") area;
  if (0 <? length defs)%nat then
    title ← Cheerio.find (sel ".client_do_you_mean_title") area ≫= Cheerio.text;
    meanings ← Cheerio.map meaning defs;
    mret (push "defs" (VObj [("title", VStr title); ("meanings", VArr meanings)])
               result)
  else mret result.

Fixpoint each_area (result : record) (areas : list ref) : M record :=
  match areas with
  | [] => mret result
  | area :: r => result ← suggestion_area result area; each_area result r
  end.

(** [client_do_you_mean_title_bar($, result)], lines 220-238. *)
Definition client_do_you_mean_title_bar (result : record) : M record :=
  title ← Cheerio.query (sel ".client_do_you_mean_title_bar") ≫= Cheerio.text;
  let result := <["title" := VStr title]> result in
  let result := <["defs" := VArr []]> result in
  areas ← Cheerio.query (sel ".client_do_you_mean_area");
  result ← each_area result areas;
  mret result.

(** The callback of the map over [#authority .ol li], lines 254-262. *)
Definition authority_item (el : ref) : M value :=
  bs ← Cheerio.find (sel "b") el;
  Cheerio.replaceWith (λ el, t ← Cheerio.text [el]; mret (cyan t)) bs;;
  via ← Cheerio.find (sel ".example-via") el;
  via_text ← Cheerio.text via;
  let pos := dim (js "(" ++ via_text ++ js ")") in
  Cheerio.replaceWith (λ _, mret []) via;;
  p ← Cheerio.find (sel "p") el ≫= Cheerio.text;
  mret (VStr (trim p ++ js "   " ++ pos)).

(** [($('.star').attr('class')?.match(/\d+/) || [0])[0]], line 242: the
    matched text when there is a match, the number 0 otherwise. *)
Definition stars_of (class : option jsstring) : value :=
  match class ≫= match_digits with
  | Some m => VStr m
  | None => VNum 0
  end.

Definition normalized_text (el : ref) : M jsstring :=
  t ← Cheerio.text [el]; mret (normalize t).

(** [handle_youdao($, result)], lines 240-265. *)
Definition handle_youdao (result : record) : M record :=
  title ← Cheerio.query (sel ".keyword") ≫= Cheerio.text;
  let result := <["title" := VStr title]> result in
  class ← Cheerio.query (sel ".star") ≫= Cheerio.attr (js "class");
  let result := <["stars" := stars_of class]> result in
  rank ← Cheerio.query (sel ".rank") ≫= Cheerio.text;
  let result := <["rank" := VStr rank]> result in
  pattern ← Cheerio.query (sel ".pattern") ≫= Cheerio.text;
  let result := <["pattern" := VStr (normalize pattern)]> result in
  pronounce ← Cheerio.query (sel ".baav .pronounce");
  prons ← Cheerio.map normalized_text pronounce;
  let result :=
    <["prons" := VStr (join (js " ") (List.filter nonempty prons))]> result in
  lis ← Cheerio.query (sel "#phrsListTab .trans-container li");
  basic ← Cheerio.map normalized_text lis;
  let result :=
    <["basic" := VArr (List.map VStr (List.filter nonempty basic))]> result in
  discrimination ← Cheerio.query (sel "#discriminate") ≫= Cheerio.text;
  let result := <["discrimination" := VStr (normalize discrimination)]> result in
  lis ← Cheerio.query (sel "#authority .ol li");
  sentence ← Cheerio.map authority_item lis;
  let result := <["sentence" := VArr sentence]> result in
  translation ← Cheerio.query (sel "#fanyiToggle .trans-container") ≫= Cheerio.text;
  let result := <["translation" := VStr (normalize translation)]> result in
  mret result.

(** The dispatch of [searchWord] on the loaded page, lines 52-81. *)
Definition extract (dict : jsstring) : M record :=
  let result : record := ∅ in
  if bool_decide (dict = js "bing") then
    full ← Cheerio.query (sel ".client_def_hd_hd");
    if (0 <? length full)%nat then client_def_hd_hd result
    else
      head ← Cheerio.query (sel ".client_trans_head");
      if (0 <? length head)%nat then client_trans_head result
      else
        bar ← Cheerio.query (sel ".client_do_you_mean_title_bar");
        if (0 <? length bar)%nat then client_do_you_mean_title_bar result
        else mret result
  else if bool_decide (dict = js "youdao") then
    typo ← Cheerio.query (sel ".error-typo");
    if (0 <? length typo)%nat then
      list ← Cheerio.text typo;
      mret (<["list" := VStr list]> result)
    else handle_youdao result
  else mret result.

(** [searchWord] from the response of the service to the record that is
    rendered; [dict] is the option of the command line, bing when it is not
    given. *)
Definition searchWord (dict : option jsstring) (response : Response)
  : outcome record :=
  let dict := default (js "bing") dict in
  match text response with
  | Exit message code => Exit message code
  | Return page => Return (run (extract dict) (boot (load page)))
  end.

End program.

(** [!result.title], line 86: the lookup has no result. *)
Definition no_result (result : record) : bool := negb (truthy (result !! "title")).

(** ** Notions used in the statements *)

(** A computation that leaves the memory as it found it. *)
Definition readonly {A} (m : M A) : Prop := ∀ h, (m h).2 = h.

(** The concise definitions as the specification describes them: the
    definition bars of the definition container, without those that contain
    a word-tag marker, each mapped to the texts of its title bar and of its
    list, of which the pairs with two non-empty parts are kept. *)
Definition definition_bars (h : heap) : list ref :=
  select_all (sel ".client_def_container .client_def_bar") (document h).

Definition has_word_tag (h : heap) (bar : ref) : bool :=
  match run (Cheerio.find (sel ".client_def_list_word_Tag") bar) h with
  | [] => false
  | _ :: _ => true
  end.

Definition bar_pair (h : heap) (bar : ref) : jsstring * jsstring :=
  (run (Cheerio.find (sel ".client_def_title_bar") bar ≫= Cheerio.text) h,
   run (Cheerio.find (sel ".client_def_list") bar ≫= Cheerio.text) h).

Definition concise_definitions (h : heap) : list (jsstring * jsstring) :=
  List.filter (λ e, nonempty e.1 && nonempty e.2)
    (List.map (bar_pair h)
       (List.filter (λ bar, negb (has_word_tag h bar)) (definition_bars h))).

(** The sentence-list items of the page, in page order. *)
Definition sentence_lists (h : heap) : list ref :=
  select_all (sel ".client_sentence_list") (document h).

(** The entries of a sequence-valued field; none when the field is absent. *)
Definition entries (k : string) (result : record) : list value :=
  match result !! k with
  | Some (VArr l) => l
  | _ => []
  end.

(** ** Pages and a library environment for the examples *)

Definition el (tag class : string) (children : list dom) : dom :=
  DElem (js tag) [(js "class", js class)] children.

Definition el_id (tag id : string) (children : list dom) : dom :=
  DElem (js tag) [(js "id", js id)] children.

Definition txt (s : string) : dom := DText (js s).

Fixpoint plain_markup (d : dom) : jsstring :=
  match d with
  | DText s => s
  | DElem t _ ch =>
      js "<" ++ t ++ js ">" ++ concat (List.map plain_markup ch)
         ++ js "</" ++ t ++ js ">"
  end.

(** Colours are switched off, a fragment without markup is one text node (no
    node when it is empty), and the serializer writes tags without
    attributes. *)
Definition plain : Lib := {|
  load s := [DText s];
  parse s := match s with [] => [] | _ => [DText s] end;
  serialize l := concat (List.map plain_markup l);
  red s := s;
  cyan s := s;
  dim s := s
|}.

(** A page of source B without any marker. *)
Definition blank_page : list dom := [el "div" "results" [txt "nothing here"]].

(** A page of source B with a star rating of four. *)
Definition star4_page : list dom :=
  [el "span" "keyword" [txt "hello"]; el "span" "star star4" []].

(** A page of source B with the typo marker next to other markers. *)
Definition typo_text : jsstring :=
  [26410; 25214; 21040; 19982]%N ++ js "..." ++ [30456; 20851; 30340; 32467; 26524]%N.

Definition typo_page : list dom :=
  [el "span" "keyword" [txt "helo"]; el "span" "star star2" [];
   el "div" "error-typo" [DText typo_text]].

(** The phonetic symbols of hello between slashes. *)
Definition hello_ipa : jsstring := [47; 104; 601; 712; 108; 111; 650; 47]%N.

(** A page of source A with the full-definition marker, one phonetic symbol,
    a definition bar and a bar with a word tag, and also the
    suggestion-title marker. *)
Definition hello_page : list dom :=
  [el "div" "client_def_hd_hd" [txt "hello"];
   el "div" "client_def_hd_pn_list" [el "span" "client_def_hd_pn" [DText hello_ipa]];
   el "div" "client_def_container"
     [el "div" "client_def_bar"
        [el "span" "client_def_list_word_Tag" [];
         el "span" "client_def_title_bar" [txt "web"];
         el "span" "client_def_list" [txt "hi"]];
      el "div" "client_def_bar"
        [el "span" "client_def_title_bar" [txt "int."];
         el "span" "client_def_list" [txt "used as a greeting"]]];
   el "div" "client_do_you_mean_title_bar" [txt "did you mean"]].

(** A field that is present with an empty string or an empty sequence. *)
Definition kept_empty (result : record) (k : string) : Prop :=
  result !! k = Some (VStr []) ∨ result !! k = Some (VArr []).

(** Whether a page in memory holds an element for a selector. *)
Definition present (s : string) (h : heap) : bool :=
  match select_all (sel s) (document h) with
  | [] => false
  | _ :: _ => true
  end.

(** ** Node identities

    Two runs of the program parse their pages into distinct objects.  In the
    model a second parse numbers its nodes from another free identity on:
    [shift k] is the same tree with every identity moved by [k]. *)

Fixpoint shift (k : nat) (n : node) : node :=
  match n with
  | Text i s => Text (i + k) s
  | Elem i t a ch => Elem (i + k) t a (List.map (shift k) ch)
  end.

Definition shift_heap (k : nat) (h : heap) : heap :=
  {| document := List.map (shift k) (document h);
     detached := List.map (shift k) (detached h);
     next_id := next_id h + k |}.

(** [m'] does on the shifted memory what [m] does on the memory, with
    results related by [ρ]. *)
Definition same_up_to {A} (k : nat) (ρ : A → A) (m m' : M A) : Prop :=
  ∀ h, m' (shift_heap k h) = (ρ (m h).1, shift_heap k (m h).2).

(** A page of source B with an example sentence and its citation. *)
Definition example_page : list dom :=
  [el "span" "keyword" [txt "hello"];
   el_id "div" "authority"
     [el "ul" "ol"
        [DElem (js "li") []
           [DElem (js "p") [] [txt "say "; DElem (js "b") [] [txt "hello"]];
            el "p" "example-via" [txt "a source"]]]]].

(** A page of source A whose only phonetic symbol is a space. *)
Definition space_page : list dom :=
  [el "div" "client_def_hd_hd" [txt "hello"];
   el "div" "client_def_hd_pn_list" [el "span" "client_def_hd_pn" [txt " "]]].

(** A page of source A with five sentence-list items. *)
Definition sentence (en cn : string) : dom :=
  el "div" "client_sentence_list"
    [el "div" "client_sen_en" [txt en]; el "div" "client_sen_cn" [txt cn]].

Definition five_sentences_page : list dom :=
  [el "div" "client_def_hd_hd" [txt "hello"];
   sentence "one" "1"; sentence "two" "2"; sentence "three" "3";
   sentence "four" "4"; sentence "five" "5"].

(** ** Notions used in the further properties *)

Abbreviation not_space := (λ c : N, negb (js_space c)).

(** The texts of the phonetic symbols, one for each pronunciation-list
    item of the page. *)
Definition phonetic_texts (h : heap) : list jsstring :=
  List.map
    (λ item, run (Cheerio.find (sel ".client_def_hd_pn") item ≫= Cheerio.text) h)
    (select_all (sel ".client_def_hd_pn_list") (document h)).

(** The trimmed texts of the inflection markers that are not empty. *)
Definition inflection_forms (h : heap) : list jsstring :=
  List.filter nonempty
    (List.map (λ el, trim (run (Cheerio.text [el]) h))
       (select_all (sel ".client_word_change_word") (document h))).

Definition suggestion_areas (h : heap) : list ref :=
  select_all (sel ".client_do_you_mean_area") (document h).

Definition suggestion_lists (h : heap) (area : ref) : list ref :=
  run (Cheerio.find (sel ".client_do_you_mean_list") area) h.

Definition has_suggestion_list (h : heap) (area : ref) : bool :=
  match suggestion_lists h area with [] => false | _ :: _ => true end.

Definition suggestion_meaning (h : heap) (item : ref) : value :=
  VObj [("word", VStr (run (Cheerio.find (sel ".client_do_you_mean_list_word") item
                              ≫= Cheerio.text) h));
        ("def", VStr (run (Cheerio.find (sel ".client_do_you_mean_list_def") item
                             ≫= Cheerio.text) h))].

Definition suggestion_entry (h : heap) (area : ref) : value :=
  VObj [("title", VStr (run (Cheerio.find (sel ".client_do_you_mean_title") area
                               ≫= Cheerio.text) h));
        ("meanings", VArr (List.map (suggestion_meaning h) (suggestion_lists h area)))].

(** The example sentences of a page of source B. *)
Definition authority_items (h : heap) : list ref :=
  select_all (sel "#authority .ol li") (document h).

(** A page of source A with the full-definition marker, but without text in
    it. *)
Definition untitled_page : list dom :=
  [el "div" "client_def_hd_hd" [];
   el "div" "client_def_container"
     [el "div" "client_def_bar"
        [el "span" "client_def_title_bar" [txt "int."];
         el "span" "client_def_list" [txt "used as a greeting"]]]].

(** A page of source A with the translation-head marker only. *)
Definition translation_page : list dom :=
  [el "div" "client_trans_head" [txt "machine translation"];
   el "div" "client_sen_cn" [DText [20320; 22909]%N]].

(** A page of source A with two suggestion areas, the first without a
    list. *)
Definition suggestion_page : list dom :=
  [el "div" "client_do_you_mean_title_bar" [txt "did you mean"];
   el "div" "client_do_you_mean_area"
     [el "div" "client_do_you_mean_title" [txt "empty"]];
   el "div" "client_do_you_mean_area"
     [el "div" "client_do_you_mean_title" [txt "words"];
      el "div" "client_do_you_mean_list"
        [el "span" "client_do_you_mean_list_word" [txt "hello"];
         el "span" "client_do_you_mean_list_def" [txt "a greeting"]]]].

(** ** Rendering

    The second half of [searchWord], lines 83-149: what is written on the
    standard output, line by line.  The spinner is left out. *)

(** The styles of chalk that the renderer uses besides those of [Lib], and
    the conversions of JavaScript that the records of the extractors never
    need but a record could ask for. *)
Class Terminal := {
  heading : jsstring → jsstring;        (* chalk.whiteBright.bold.underline *)
  yellowBright : jsstring → jsstring;   (* chalk.yellowBright *)
  cyanBright : jsstring → jsstring;     (* chalk.cyanBright *)
  whiteBright : jsstring → jsstring;    (* chalk.whiteBright *)
  badge : jsstring → jsstring;          (* chalk.bgWhite.black *)
  white : jsstring → jsstring;          (* chalk.white *)
  number_text : Z → jsstring;           (* the string of a number *)
  object_text : value → jsstring;       (* the string of an object *)
  repeat_star : value → option jsstring (* '★'.repeat(v), None: RangeError *)
}.

(** What a call has written, and whether it ended by an exception. *)
Record printed := Printed {
  lines : list jsstring;
  threw : bool
}.

(** [console.log(line)] *)
Definition say (line : jsstring) : printed := Printed [line] false.

Definition nothing : printed := Printed [] false.

(** A TypeError or RangeError, which nothing catches. *)
Definition raise : printed := Printed [] true.

(** One statement after the other. *)
Definition and_then (p q : printed) : printed :=
  if threw p then p else Printed (lines p ++ lines q) (threw q).

Infix ">>" := and_then (at level 61, left associativity).

(** [if (b) { p }] *)
Definition when (b : bool) (p : printed) : printed := if b then p else nothing.

(** The decimal digits of an index. *)
Fixpoint digits_of (u : Decimal.uint) : jsstring :=
  match u with
  | Decimal.Nil => []
  | Decimal.D0 r => 48%N :: digits_of r
  | Decimal.D1 r => 49%N :: digits_of r
  | Decimal.D2 r => 50%N :: digits_of r
  | Decimal.D3 r => 51%N :: digits_of r
  | Decimal.D4 r => 52%N :: digits_of r
  | Decimal.D5 r => 53%N :: digits_of r
  | Decimal.D6 r => 54%N :: digits_of r
  | Decimal.D7 r => 55%N :: digits_of r
  | Decimal.D8 r => 56%N :: digits_of r
  | Decimal.D9 r => 57%N :: digits_of r
  end.

Definition decimal (n : nat) : jsstring := digits_of (Nat.to_uint n).

Fixpoint field_of (k : string) (fields : list (string * value)) : option value :=
  match fields with
  | [] => None
  | (k', v) :: r => if String.eqb k k' then Some v else field_of k r
  end.

(** [a.k]: [None] is the TypeError of reading a property of null; the
    inner [None] is undefined. *)
Definition prop (k : string) (a : value) : option (option value) :=
  match a with
  | VNull => None
  | VObj fields => Some (field_of k fields)
  | _ => Some None
  end.

Section rendering.
Context `{Lib} `{Terminal}.

(** The string of a value in a template or as the argument of a style. *)
Definition show (v : option value) : jsstring :=
  match v with
  | None => js "undefined"
  | Some VNull => js "null"
  | Some (VStr s) => s
  | Some (VNum n) => number_text n
  | Some v => object_text v
  end.

(** [v.each((i, a) => fn)] for a truthy [v]: a sequence is gone through in
    order, anything else has no method [each]. *)
Fixpoint each_from (i : nat) (fn : nat → value → printed) (items : list value)
  : printed :=
  match items with
  | [] => nothing
  | a :: r => fn i a >> each_from (S i) fn r
  end.

Definition each_of (v : option value) (fn : nat → value → printed) : printed :=
  match v with
  | Some (VArr items) => each_from 0 fn items
  | _ => raise
  end.

(** Lines 117-119. *)
Definition cdef_line (a : value) : printed :=
  match prop "pos" a, prop "def" a with
  | Some pos, Some def =>
      say (js "    " ++ cyanBright (show pos) ++ js " " ++ whiteBright (show def))
  | _, _ => raise
  end.

(** Lines 133-138. *)
Definition sentences_lines (i : nat) (a : value) : printed :=
  let num := whiteBright (decimal (i + 1) ++ js ".") in
  match prop "en" a, prop "source" a, prop "chs" a with
  | Some en, Some source, Some chs =>
      say (js "    " ++ num ++ js " " ++ whiteBright (show en) ++ js "   "
             ++ dim (js "(" ++ show source ++ js ")"))
      >> say (js "       " ++ white (show chs))
      >> say []
  | _, _, _ => raise
  end.

(** Lines 144-148. *)
Definition sentence_lines (i : nat) (a : value) : printed :=
  let num := whiteBright (decimal (i + 1) ++ js ".") in
  say (js "    " ++ num ++ js " " ++ whiteBright (show (Some a))) >> say [].

(** The two characters of the label of the inflections, and the label of
    the examples between two spaces. *)
Definition forms_label : jsstring := [35789; 24418]%N.
Definition examples_label : jsstring := [32; 20363; 21477; 32]%N.

(** Lines 98-102: the line of the pronunciations, [None] when [repeat]
    throws. *)
Definition prons_line (result : record) : option jsstring :=
  let head := js "    " ++ heading (show (result !! "title")) ++ js "  "
                ++ show (result !! "prons") in
  let rank := if truthy (result !! "rank")
              then js "  " ++ dim (js "(" ++ show (result !! "rank") ++ js ")")
              else [] in
  match result !! "stars" with
  | Some v =>
      if truthy (Some v)
      then stars ← repeat_star v;
           Some (head ++ rank ++ js "  " ++ yellowBright stars)
      else Some (head ++ rank)
  | None => Some (head ++ rank)
  end.

(** Lines 86-149. *)
Definition render (complete : bool) (result : record) : printed :=
  if negb (truthy (result !! "title")) then say (red (js "No result."))
  else
    say []
    >> when (complete && truthy (result !! "phsym"))
         (say (js "    " ++ heading (show (result !! "title")) ++ js "  "
                 ++ show (result !! "phsym"))
          >> say [])
    >> when (complete && truthy (result !! "prons"))
         (match prons_line result with
          | Some line => say line >> say []
          | None => raise
          end)
    >> when (complete && truthy (result !! "infs"))
         (say (js "    " ++ cyanBright forms_label ++ js " "
                 ++ whiteBright (show (result !! "infs")))
          >> say [])
    >> when (complete && truthy (result !! "pattern"))
         (say (js "    " ++ cyanBright forms_label ++ js " "
                 ++ whiteBright (show (result !! "pattern")))
          >> say [])
    >> when (truthy (result !! "cdef"))
         (each_of (result !! "cdef") (λ _ a, cdef_line a) >> say [])
    >> when (truthy (result !! "basic"))
         (each_of (result !! "basic")
               (λ _ a, say (js "    " ++ whiteBright (show (Some a))))
          >> say [])
    >> when (complete && truthy (result !! "sentences"))
         (say (js "    " ++ badge examples_label)
          >> say []
          >> each_of (result !! "sentences") sentences_lines)
    >> when (complete && truthy (result !! "sentence"))
         (say (js "    " ++ badge examples_label)
          >> say []
          >> each_of (result !! "sentence") sentence_lines).

End rendering.

(** The fields the renderer reads. *)
Definition rendered_fields (complete : bool) : list string :=
  ["title"; "cdef"; "basic"]
  ++ (if complete
      then ["phsym"; "prons"; "rank"; "stars"; "infs"; "pattern"; "sentences";
            "sentence"]
      else []).

(** The styles switched off, numbers in digits. *)
Definition plain_terminal : Terminal := {|
  heading s := s;
  yellowBright s := s;
  cyanBright s := s;
  whiteBright s := s;
  badge s := s;
  white s := s;
  number_text n := match n with
                   | Z.neg _ => js "-" ++ decimal (Z.to_nat (- n))
                   | _ => decimal (Z.to_nat n)
                   end;
  object_text _ := js "[object Object]";
  repeat_star v := match to_number v with
                   | Some n => if (n <? 0)%Z then None
                               else Some (replicate (Z.to_nat n) 9733%N)
                   | None => Some []
                   end
|}.

(** A field that, when it is present, is a sequence of items that all
    satisfy [P]. *)
Definition sequence_of (P : value → Prop) (v : option value) : Prop :=
  match v with
  | None => True
  | Some (VArr items) => Forall P items
  | Some _ => False
  end.

(** A record whose four rendered sequences are sequences, those of objects
    without a null item. *)
Definition renderable (result : record) : Prop :=
  sequence_of (λ a, a ≠ VNull) (result !! "cdef")
  ∧ sequence_of (λ _, True) (result !! "basic")
  ∧ sequence_of (λ a, a ≠ VNull) (result !! "sentences")
  ∧ sequence_of (λ _, True) (result !! "sentence").

(** The normalized texts of the phrase-list items of a page of source B
    that are not empty. *)
Definition basic_texts (h : heap) : list jsstring :=
  List.filter nonempty
    (List.map (λ el, normalize (run (Cheerio.text [el]) h))
       (select_all (sel "#phrsListTab .trans-container li") (document h))).

(** A terminal whose strings hold at most three stars. *)
Definition short_terminal : Terminal := {|
  heading s := s;
  yellowBright s := s;
  cyanBright s := s;
  whiteBright s := s;
  badge s := s;
  white s := s;
  number_text n := number_text (Terminal := plain_terminal) n;
  object_text v := object_text (Terminal := plain_terminal) v;
  repeat_star v := match to_number v with
                   | Some n => if (n <? 0)%Z || (3 <? n)%Z then None
                               else Some (replicate (Z.to_nat n) 9733%N)
                   | None => Some []
                   end
|}.

(** A page of source B with a headword, a pronunciation and two phrases. *)
Definition phrase_page : list dom :=
  [el "span" "keyword" [txt "hello"];
   el "span" "star star4" [];
   el "div" "baav" [el "span" "pronounce" [txt " US  [h] "]];
   el_id "div" "phrsListTab"
     [el "div" "trans-container"
        [DElem (js "li") [] [txt " int.  hi "];
         DElem (js "li") [] [txt "  "];
         DElem (js "li") [] [txt "n. a greeting"]]]].

(** ** Further pages and environments for the examples *)

(** A page of source B whose typo marker has no text. *)
Definition empty_typo_page : list dom := [el "div" "error-typo" []].

(** A page of source A with the suggestion-title marker and no suggestion
    area. *)
Definition bare_suggestion_page : list dom :=
  [el "div" "client_do_you_mean_title_bar" [txt "did you mean"]].

(** A page of source A whose only definition bar has a space for its part
    of speech and for its definition. *)
Definition blank_bar_page : list dom :=
  [el "div" "client_def_hd_hd" [txt "hello"];
   el "div" "client_def_container"
     [el "div" "client_def_bar"
        [el "span" "client_def_title_bar" [txt " "];
         el "span" "client_def_list" [txt " "]]]].

(** Two computations that do the same on every memory. *)
Definition agree {A} (m1 m2 : M A) : Prop := ∀ h, m1 h = m2 h.

(** The escape character of the terminal. *)
Definition ESC : N := 27%N.

(** The environment [plain] with the colours switched on: chalk wraps a
    text between the escape sequences of its style. *)
Definition coloured : Lib := {|
  load := load (Lib := plain);
  parse := parse (Lib := plain);
  serialize := serialize (Lib := plain);
  red s := [ESC] ++ js "[31m" ++ s ++ [ESC] ++ js "[39m";
  cyan s := [ESC] ++ js "[36m" ++ s ++ [ESC] ++ js "[39m";
  dim s := [ESC] ++ js "[2m" ++ s ++ [ESC] ++ js "[22m"
|}.

(** The environment [plain] with another red. *)
Definition plain_but_red : Lib := {|
  load := load (Lib := plain);
  parse := parse (Lib := plain);
  serialize := serialize (Lib := plain);
  red := red (Lib := coloured);
  cyan := cyan (Lib := plain);
  dim := dim (Lib := plain)
|}.

(** The environment [L] with a page parser that reads every text as the
    document [page]. *)
Definition reading (page : list dom) (L : Lib) : Lib := {|
  load _ := page;
  parse := parse (Lib := L);
  serialize := serialize (Lib := L);
  red := red (Lib := L);
  cyan := cyan (Lib := L);
  dim := dim (Lib := L)
|}.

(** A page of source A with one example sentence in which the looked-up
    word is marked. *)
Definition searched_page : list dom :=
  [el "div" "client_def_hd_hd" [txt "hello"];
   el "div" "client_sentence_list"
     [el "div" "client_sen_en"
        [txt "say "; el "span" "client_sentence_search" [txt "hello"]]]].
(** * Properties *)

(** ** The text normalizer *)

Lemma js_space_SPACE : js_space SPACE = true.
Proof. reflexivity. Qed.

Lemma replace_runs_fixed s :
  replace_runs true (replace_runs true s) = replace_runs true s
  ∧ replace_runs false (replace_runs true s) = replace_runs true s
  ∧ replace_runs false (replace_runs false s) = replace_runs false s.
Proof.
  induction s as [|c r (IH1 & IH2 & IH3)]; [done|].
  cbn [replace_runs]. destruct (js_space c) eqn:Hc.
  - repeat split; try assumption.
    cbn [replace_runs]. rewrite js_space_SPACE. by rewrite IH1.
  - cbn [replace_runs]. rewrite Hc. by rewrite IH3.
Qed.

Lemma replace_runs_head_true s :
  match replace_runs true s with c :: _ => js_space c = false | [] => True end.
Proof.
  induction s as [|c r IH]; [done|]. cbn [replace_runs].
  destruct (js_space c) eqn:Hc; done.
Qed.

Lemma replace_runs_collapsed f s : collapsed (replace_runs f s).
Proof.
  revert f. induction s as [|c r IH]; intros f; [done|].
  cbn [replace_runs]. destruct (js_space c) eqn:Hc.
  - destruct f; [apply IH|]. split; [|apply IH].
    intros _. split; [done|]. apply replace_runs_head_true.
  - split; [|apply IH]. congruence.
Qed.

Lemma collapsed_fixed s : collapsed s → replace_runs false s = s.
Proof.
  induction s as [|c r IH]; [done|]. intros [Hc Hr].
  cbn [replace_runs]. destruct (js_space c) eqn:Ec.
  - destruct (Hc eq_refl) as [-> Hn]. f_equal.
    destruct r as [|c' r']; [done|].
    specialize (IH Hr). cbn [replace_runs] in *. rewrite Hn in *. done.
  - f_equal. by apply IH.
Qed.

Lemma collapsed_trim_start s : collapsed s → collapsed (trim_start s).
Proof.
  induction s as [|c r IH]; [done|]. intros [Hc Hr].
  cbn [trim_start]. destruct (js_space c) eqn:Ec; [by apply IH|]. split; [congruence|done].
Qed.

Lemma trim_end_head c t s : trim_end s = c :: t → ∃ t0, s = c :: t0.
Proof.
  destruct s as [|a r]; [done|]. cbn [trim_end].
  destruct (trim_end r); [destruct (js_space a)|]; intros H; simplify_eq; eauto.
Qed.

Lemma collapsed_trim_end s : collapsed s → collapsed (trim_end s).
Proof.
  induction s as [|c r IH]; [done|]. intros [Hc Hr].
  cbn [trim_end]. destruct (trim_end r) as [|c' t] eqn:Et.
  - destruct (js_space c) eqn:Ec; [done|]. split; [congruence|done].
  - split; [|by apply IH]. intros Hs. destruct (Hc Hs) as [-> Hn].
    split; [done|]. apply trim_end_head in Et as [t0 ->]. done.
Qed.

Lemma trim_end_idemp s : trim_end (trim_end s) = trim_end s.
Proof.
  induction s as [|c r IH]; [done|]. cbn [trim_end].
  destruct (trim_end r) as [|c' t] eqn:Et.
  - destruct (js_space c) eqn:Ec; [done|]. cbn. by rewrite Ec.
  - cbn [trim_end]. cbn [trim_end] in IH. by rewrite IH.
Qed.

Lemma trim_start_head s :
  match trim_start s with c :: _ => js_space c = false | [] => True end.
Proof.
  induction s as [|c r IH]; [done|]. cbn [trim_start].
  destruct (js_space c) eqn:Ec; done.
Qed.

Lemma trim_start_trim_end s :
  match s with c :: _ => js_space c = false | [] => True end →
  trim_start (trim_end s) = trim_end s.
Proof.
  destruct s as [|c r]; [done|]. intros Hc. cbn [trim_end].
  destruct (trim_end r); rewrite ?Hc; cbn [trim_start]; by rewrite Hc.
Qed.

Lemma trim_idemp s : trim (trim s) = trim s.
Proof.
  unfold trim. rewrite trim_start_trim_end by apply trim_start_head.
  apply trim_end_idemp.
Qed.

Lemma normalize_collapsed s : collapsed (normalize s).
Proof.
  apply collapsed_trim_end, collapsed_trim_start, replace_runs_collapsed.
Qed.

(** C9. The normalizer [s.replace(/\s+/g, ' ').trim()] is idempotent, and it
    maps the string of two spaces, a, three spaces, b, a line feed, a space,
    c and a space to the string a, space, b, space, c. *)
Theorem normalize_idempotent :
  (∀ s : jsstring, normalize (normalize s) = normalize s)
  ∧ normalize (js "  a   b" ++ [10%N] ++ js " c ") = js "a b c".
Proof.
  split; [|reflexivity]. intros s.
  unfold normalize at 1. unfold replace_spaces.
  rewrite collapsed_fixed by apply normalize_collapsed.
  unfold normalize. apply trim_idemp.
Qed.

(** ** Computations on the memory *)

Lemma bind_eq {A B} (m : M A) (f : A → M B) h :
  (m ≫= f) h = f (m h).1 (m h).2.
Proof. reflexivity. Qed.

Lemma readonly_bind_eq {A B} (m : M A) (f : A → M B) h :
  readonly m → (m ≫= f) h = f (run m h) h.
Proof. intros Hm. rewrite bind_eq, Hm. reflexivity. Qed.

Lemma readonly_ret {A} (a : A) : readonly (mret a).
Proof. intros h. reflexivity. Qed.

Lemma readonly_gets {A} (f : heap → A) : readonly (gets f).
Proof. intros h. reflexivity. Qed.

Lemma readonly_bind {A B} (m : M A) (f : A → M B) :
  readonly m → (∀ a, readonly (f a)) → readonly (m ≫= f).
Proof. intros Hm Hf h. rewrite readonly_bind_eq by done. apply Hf. Qed.

Lemma readonly_if {A} (b : bool) (m1 m2 : M A) :
  readonly m1 → readonly m2 → readonly (if b then m1 else m2).
Proof. by destruct b. Qed.

Lemma readonly_query s : readonly (Cheerio.query s).
Proof. apply readonly_gets. Qed.

Lemma readonly_find s el : readonly (Cheerio.find s el).
Proof. apply readonly_gets. Qed.

Lemma readonly_text els : readonly (Cheerio.text els).
Proof. apply readonly_gets. Qed.

Lemma readonly_attr name els : readonly (Cheerio.attr name els).
Proof. apply readonly_gets. Qed.

Lemma map_readonly_eq {A B} (fn : A → M B) els h :
  (∀ el, readonly (fn el)) →
  Cheerio.map fn els h = (List.map (λ el, run (fn el) h) els, h).
Proof.
  intros Hfn. induction els as [|el r IH]; [done|].
  cbn [Cheerio.map List.map]. rewrite readonly_bind_eq by done.
  rewrite bind_eq, IH. reflexivity.
Qed.

Lemma filter_readonly_eq {A} (fn : A → M bool) els h :
  (∀ el, readonly (fn el)) →
  Cheerio.filter fn els h = (List.filter (λ el, run (fn el) h) els, h).
Proof.
  intros Hfn. induction els as [|el r IH]; [done|].
  cbn [Cheerio.filter List.filter]. rewrite readonly_bind_eq by done.
  rewrite bind_eq, IH. cbn. by destruct (run (fn el) h).
Qed.

Lemma readonly_map {A B} (fn : A → M B) els :
  (∀ el, readonly (fn el)) → readonly (Cheerio.map fn els).
Proof. intros Hfn h. by rewrite map_readonly_eq. Qed.

Lemma readonly_filter {A} (fn : A → M bool) els :
  (∀ el, readonly (fn el)) → readonly (Cheerio.filter fn els).
Proof. intros Hfn h. by rewrite filter_readonly_eq. Qed.

Create HintDb readonly.
#[global] Hint Resolve readonly_ret readonly_gets readonly_query readonly_find
  readonly_text readonly_attr readonly_if : readonly.
#[global] Hint Extern 2 (readonly (_ ≫= _)) =>
  apply readonly_bind; [|intros ?] : readonly.
#[global] Hint Extern 2 (readonly (Cheerio.map _ _)) =>
  apply readonly_map; intros ? : readonly.
#[global] Hint Extern 2 (readonly (Cheerio.filter _ _)) =>
  apply readonly_filter; intros ? : readonly.

Ltac readonly := auto 20 with readonly.

Lemma cheerio_map_length {A B} (fn : A → M B) els h :
  length (Cheerio.map fn els h).1 = length els.
Proof.
  revert h. induction els as [|el r IH]; intros h; [done|].
  cbn [Cheerio.map]. rewrite !bind_eq. cbn. by rewrite IH.
Qed.

(** The results for the first [n] elements do not depend on the elements
    that come after them. *)
Lemma map_take {A B} (fn : A → M B) els n h :
  take n (run (Cheerio.map fn els) h) = run (Cheerio.map fn (take n els)) h.
Proof.
  unfold run. revert n h. induction els as [|el r IH]; intros [|n] h; try done.
  cbn [Cheerio.map take]. rewrite !bind_eq. cbn. by rewrite IH.
Qed.

Lemma positive_length {A} (l : list A) :
  (0 <? length l)%nat = match l with [] => false | _ => true end.
Proof. by destruct l. Qed.

Lemma zero_length {A} (l : list A) :
  (length l =? 0)%nat = match l with [] => true | _ => false end.
Proof. by destruct l. Qed.

(** ** The full-definition extractor of source A, step by step *)

Section full_definition.
Context `{Lib}.

Lemma set_phsym_readonly result : readonly (set_phsym result).
Proof. unfold set_phsym. readonly. Qed.

Lemma no_word_tag_readonly el : readonly (no_word_tag el).
Proof. unfold no_word_tag. readonly. Qed.

Lemma pos_def_readonly el : readonly (pos_def el).
Proof. unfold pos_def. readonly. Qed.

Lemma set_cdef_readonly result : readonly (set_cdef result).
Proof.
  unfold set_cdef. pose proof no_word_tag_readonly. pose proof pos_def_readonly.
  readonly.
Qed.

Lemma set_infs_readonly result : readonly (set_infs result).
Proof. unfold set_infs. readonly. Qed.

Lemma set_phsym_frame result h k :
  k ≠ "phsym" → run (set_phsym result) h !! k = result !! k.
Proof.
  intros Hk. unfold run, set_phsym. rewrite bind_eq.
  destruct (0 <? _)%nat; [|done]. rewrite bind_eq. cbn [mret M_ret fst].
  destruct (_ =? 0)%nat; by simplify_map_eq.
Qed.

Lemma set_cdef_frame result h k :
  k ≠ "cdef" → run (set_cdef result) h !! k = result !! k.
Proof.
  intros Hk. unfold run, set_cdef. rewrite bind_eq.
  destruct (0 <? _)%nat; [|done]. rewrite !bind_eq. cbn [mret M_ret fst].
  destruct (_ =? 0)%nat; by simplify_map_eq.
Qed.

Lemma set_infs_frame result h k :
  k ≠ "infs" → run (set_infs result) h !! k = result !! k.
Proof.
  intros Hk. unfold run, set_infs. rewrite bind_eq.
  destruct (0 <? _)%nat; [|done]. rewrite bind_eq. cbn [mret M_ret fst].
  destruct (_ =? 0)%nat; by simplify_map_eq.
Qed.

Lemma set_sentences_frame result h k :
  k ≠ "sentences" → run (set_sentences result) h !! k = result !! k.
Proof.
  intros Hk. unfold run, set_sentences. rewrite bind_eq.
  destruct (0 <? _)%nat; [|done]. rewrite bind_eq. cbn [mret M_ret fst].
  by simplify_map_eq.
Qed.

(** The record of [client_def_hd_hd], as the composition of its steps on
    the page as it was loaded: only the last step changes the memory. *)
Lemma client_def_hd_hd_steps result h :
  run (client_def_hd_hd result) h =
  let title := run (Cheerio.query (sel ".client_def_hd_hd") ≫= Cheerio.text) h in
  let r1 := run (set_phsym (<["title" := VStr title]> result)) h in
  let r2 := run (set_cdef r1) h in
  let r3 := run (set_infs r2) h in
  run (set_sentences r3) h.
Proof.
  unfold run at 1. unfold client_def_hd_hd.
  rewrite readonly_bind_eq by readonly.
  rewrite readonly_bind_eq by apply set_phsym_readonly.
  rewrite readonly_bind_eq by apply set_cdef_readonly.
  rewrite readonly_bind_eq by apply set_infs_readonly.
  rewrite bind_eq. reflexivity.
Qed.

Lemma set_cdef_value result h :
  result !! "cdef" = None →
  run (set_cdef result) h !! "cdef" =
  match concise_definitions h with
  | [] => None
  | l => Some (VArr (List.map cdef_entry l))
  end.
Proof.
  intros Hr. unfold run, set_cdef.
  rewrite readonly_bind_eq by readonly.
  unfold concise_definitions, definition_bars.
  change (run (Cheerio.query ?s) h) with (select_all s (document h)).
  rewrite positive_length.
  destruct (select_all _ (document h)) as [|bar bars] eqn:Hbars; [done|].
  rewrite bind_eq, filter_readonly_eq by apply no_word_tag_readonly.
  cbn [fst snd]. rewrite bind_eq, map_readonly_eq by apply pos_def_readonly.
  cbn [fst snd mret M_ret]. rewrite zero_length.
  assert (∀ el, run (no_word_tag el) h = negb (has_word_tag h el)) as Htag.
  { intros el. unfold run, no_word_tag, has_word_tag. rewrite bind_eq.
    cbn [mret M_ret fst]. rewrite zero_length. unfold run.
    by destruct (Cheerio.find _ el h).1. }
  assert (∀ el, run (pos_def el) h = bar_pair h el) as Hpair.
  { intros el. unfold run at 1. unfold pos_def.
    rewrite !readonly_bind_eq by readonly. reflexivity. }
  erewrite (List.filter_ext _ _ Htag).
  erewrite (List.map_ext _ _ Hpair).
  fold pos_and_def.
  destruct (List.filter pos_and_def _); by simplify_map_eq.
Qed.

Lemma set_sentences_value result h :
  run (set_sentences result) h !! "sentences" =
  match sentence_lists h with
  | [] => result !! "sentences"
  | sens => Some (VArr (run (Cheerio.map sentence_item (take 4 sens)) h))
  end.
Proof.
  unfold run at 1. unfold set_sentences.
  rewrite readonly_bind_eq by readonly.
  unfold sentence_lists.
  change (run (Cheerio.query ?s) h) with (select_all s (document h)).
  rewrite positive_length.
  destruct (select_all _ (document h)) as [|el els]; [done|].
  rewrite bind_eq. cbn [mret M_ret fst]. rewrite lookup_insert_eq.
  do 2 f_equal. apply map_take.
Qed.

End full_definition.

(** ** The other extractors and the dispatch *)

Section extractors.
Context `{Lib}.

Lemma normalized_text_readonly el : readonly (normalized_text el).
Proof. unfold normalized_text. readonly. Qed.

(** The record of [handle_youdao]: every field is set, whatever the page
    holds; only the map over the example sentences changes the memory, and
    only the translation is read after it. *)
Lemma handle_youdao_fields result h :
  ∃ sentence translation,
    run (handle_youdao result) h =
    let text_at s := run (Cheerio.query (sel s) ≫= Cheerio.text) h in
    let texts_at s :=
      List.map (λ el, run (normalized_text el) h) (select_all (sel s) (document h)) in
    <["translation" := VStr translation]>
      (<["sentence" := VArr sentence]>
      (<["discrimination" := VStr (normalize (text_at "#discriminate"))]>
      (<["basic" := VArr (List.map VStr
           (List.filter nonempty (texts_at "#phrsListTab .trans-container li")))]>
      (<["prons" := VStr (join (js " ")
           (List.filter nonempty (texts_at ".baav .pronounce")))]>
      (<["pattern" := VStr (normalize (text_at ".pattern"))]>
      (<["rank" := VStr (text_at ".rank")]>
      (<["stars" := stars_of
           (run (Cheerio.query (sel ".star") ≫= Cheerio.attr (js "class")) h)]>
      (<["title" := VStr (text_at ".keyword")]> result)))))))).
Proof.
  eexists _, _. unfold run at 1. unfold handle_youdao.
  pose proof normalized_text_readonly.
  do 5 (rewrite readonly_bind_eq by readonly).
  rewrite bind_eq, map_readonly_eq by done. cbn [fst snd].
  rewrite readonly_bind_eq by readonly.
  rewrite bind_eq, map_readonly_eq by done. cbn [fst snd].
  do 2 (rewrite readonly_bind_eq by readonly).
  rewrite !bind_eq. cbn [mret M_ret fst snd]. reflexivity.
Qed.

Lemma text_nil h : run (Cheerio.text []) h = [].
Proof. reflexivity. Qed.

Lemma query_text_eq s h :
  run (Cheerio.query s ≫= Cheerio.text) h
  = run (Cheerio.text (select_all s (document h))) h.
Proof. reflexivity. Qed.

Lemma extract_bing h :
  extract (js "bing") h =
  match select_all (sel ".client_def_hd_hd") (document h) with
  | _ :: _ => client_def_hd_hd ∅ h
  | [] =>
      match select_all (sel ".client_trans_head") (document h) with
      | _ :: _ => client_trans_head ∅ h
      | [] =>
          match select_all (sel ".client_do_you_mean_title_bar") (document h) with
          | _ :: _ => client_do_you_mean_title_bar ∅ h
          | [] => (∅, h)
          end
      end
  end.
Proof.
  unfold extract. rewrite bool_decide_eq_true_2 by done.
  rewrite readonly_bind_eq by readonly.
  change (run (Cheerio.query ?s) h) with (select_all s (document h)).
  rewrite positive_length. destruct (select_all _ (document h)); [|done].
  rewrite readonly_bind_eq by readonly.
  change (run (Cheerio.query ?s) h) with (select_all s (document h)).
  rewrite positive_length. destruct (select_all _ (document h)); [|done].
  rewrite readonly_bind_eq by readonly.
  change (run (Cheerio.query ?s) h) with (select_all s (document h)).
  rewrite positive_length. by destruct (select_all _ (document h)).
Qed.

Lemma extract_youdao h :
  extract (js "youdao") h =
  match select_all (sel ".error-typo") (document h) with
  | [] => handle_youdao ∅ h
  | typo => ({["list" := VStr (run (Cheerio.text typo) h)]}, h)
  end.
Proof.
  unfold extract. rewrite bool_decide_eq_false_2 by (by vm_compute).
  rewrite bool_decide_eq_true_2 by done.
  rewrite readonly_bind_eq by readonly.
  change (run (Cheerio.query ?s) h) with (select_all s (document h)).
  rewrite positive_length. destruct (select_all _ (document h)); [done|].
  rewrite readonly_bind_eq by readonly. cbn [mret M_ret].
  by rewrite insert_empty.
Qed.

End extractors.

(** ** The first run of digits *)

Lemma take_digits_spec s :
  ∃ post, s = take_digits s ++ post
          ∧ forallb js_digit (take_digits s) = true
          ∧ match post with c :: _ => js_digit c = false | [] => True end.
Proof.
  induction s as [|c r (post & Hs & Hd & Hp)]; [by exists []|].
  cbn [take_digits]. destruct (js_digit c) eqn:Hc.
  - exists post. cbn. rewrite Hc. by rewrite <- Hs.
  - by exists (c :: r).
Qed.

Lemma match_digits_some s m :
  match_digits s = Some m →
  ∃ pre post, s = pre ++ m ++ post
              ∧ forallb (λ c, negb (js_digit c)) pre = true
              ∧ m ≠ [] ∧ forallb js_digit m = true
              ∧ match post with c :: _ => js_digit c = false | [] => True end.
Proof.
  induction s as [|c r IH]; [done|]. cbn [match_digits].
  destruct (js_digit c) eqn:Hc.
  - intros [= <-]. destruct (take_digits_spec r) as (post & Hs & Hd & Hp).
    exists [], post. cbn. rewrite Hc, Hd. by rewrite <- Hs.
  - intros (pre & post & -> & Hpre & Hm) %IH.
    exists (c :: pre), post. cbn. by rewrite Hc, Hpre.
Qed.

Lemma match_digits_none s :
  match_digits s = None → forallb (λ c, negb (js_digit c)) s = true.
Proof.
  induction s as [|c r IH]; [done|]. cbn.
  destruct (js_digit c); [done|]. apply IH.
Qed.

(** ** The claims *)

Section claims.
Context `{Lib}.

Lemma set_phsym_value result h v :
  result !! "phsym" = None →
  run (set_phsym result) h !! "phsym" = Some v →
  ∃ s, v = VStr s ∧ s ≠ [] ∧ present ".client_def_hd_pn_list" h = true.
Proof.
  intros Hr. unfold run, set_phsym, present.
  rewrite readonly_bind_eq by readonly.
  change (run (Cheerio.query ?s) h) with (select_all s (document h)).
  rewrite positive_length.
  destruct (select_all _ (document h)); [cbn; congruence|].
  rewrite bind_eq. cbn [mret M_ret fst]. rewrite zero_length.
  destruct (join [] _) as [|c s] eqn:Hj; simplify_map_eq; [done|].
  intros [= <-]. by eexists.
Qed.

Lemma set_infs_value result h v :
  result !! "infs" = None →
  run (set_infs result) h !! "infs" = Some v →
  ∃ s, v = VStr s ∧ s ≠ [] ∧ present ".client_word_change_word" h = true.
Proof.
  intros Hr. unfold run, set_infs, present.
  rewrite readonly_bind_eq by readonly.
  change (run (Cheerio.query ?s) h) with (select_all s (document h)).
  rewrite positive_length.
  destruct (select_all _ (document h)); [cbn; congruence|].
  rewrite bind_eq. cbn [mret M_ret fst]. rewrite zero_length.
  destruct (join (js ", ") _) as [|c s] eqn:Hj; simplify_map_eq; [done|].
  intros [= <-]. by eexists.
Qed.

(** The fields [client_def_hd_hd] may touch. *)
Lemma client_def_hd_hd_frame result h k :
  k ∉ ["title"; "phsym"; "cdef"; "infs"; "sentences"] →
  run (client_def_hd_hd result) h !! k = result !! k.
Proof.
  intros Hk. rewrite client_def_hd_hd_steps. cbn zeta.
  assert (∀ k', k' ∈ ["title"; "phsym"; "cdef"; "infs"; "sentences"] → k ≠ k')
    as Hne by (intros k' Hk' ->; done).
  rewrite set_sentences_frame by (apply Hne; set_solver).
  rewrite set_infs_frame by (apply Hne; set_solver).
  rewrite set_cdef_frame by (apply Hne; set_solver).
  rewrite set_phsym_frame by (apply Hne; set_solver).
  rewrite lookup_insert_ne by (apply not_eq_sym, Hne; set_solver). done.
Qed.


Lemma meaning_readonly el : readonly (meaning el).
Proof. unfold meaning. readonly. Qed.

Lemma suggestion_area_defs result area h :
  is_Some (result !! "defs") →
  is_Some (run (suggestion_area result area) h !! "defs").
Proof.
  intros Hr. unfold run, suggestion_area. rewrite bind_eq.
  destruct (0 <? _)%nat; [|done]. rewrite !bind_eq. cbn [mret M_ret fst].
  unfold push. destruct (result !! "defs") as [[]|] eqn:Hd; try done.
  by rewrite lookup_insert_eq.
Qed.

Lemma each_area_defs areas result h :
  is_Some (result !! "defs") →
  is_Some (run (each_area result areas) h !! "defs").
Proof.
  revert result h. induction areas as [|area r IH]; intros result h Hr; [done|].
  unfold run. cbn [each_area]. rewrite bind_eq. apply IH.
  by apply suggestion_area_defs.
Qed.

(** C2. Source A is classified by its markers in the order full definition,
    translation head, suggestion title: the extractor of the first marker
    that is present runs on the empty record, and no extractor runs when
    none is present.  When the full-definition marker is present, whatever
    other markers the page has, the record holds no field but those of the
    full-definition extractor (no [mt] and no [defs]). *)
Theorem bing_first_marker_wins h :
  extract (js "bing") h =
    (if present ".client_def_hd_hd" h then client_def_hd_hd ∅ h
     else if present ".client_trans_head" h then client_trans_head ∅ h
     else if present ".client_do_you_mean_title_bar" h
          then client_do_you_mean_title_bar ∅ h
     else (∅, h))
  ∧ (present ".client_def_hd_hd" h = true →
     ∀ k, is_Some (run (extract (js "bing")) h !! k) →
          k ∈ ["title"; "phsym"; "cdef"; "infs"; "sentences"]).
Proof.
  assert (extract (js "bing") h =
    (if present ".client_def_hd_hd" h then client_def_hd_hd ∅ h
     else if present ".client_trans_head" h then client_trans_head ∅ h
     else if present ".client_do_you_mean_title_bar" h
          then client_do_you_mean_title_bar ∅ h
     else (∅, h))) as Heq.
  { rewrite extract_bing. unfold present.
    by repeat destruct (select_all _ (document h)). }
  split; [exact Heq|]. intros Hp k Hk. unfold run in Hk.
  rewrite Heq, Hp in Hk. fold (run (client_def_hd_hd ∅) h) in Hk.
  destruct (decide (k ∈ ["title"; "phsym"; "cdef"; "infs"; "sentences"]))
    as [|Hn]; [done|].
  rewrite client_def_hd_hd_frame in Hk by done.
  rewrite lookup_empty in Hk. by destruct Hk.
Qed.

(** C3. The [sentences] of a full-definition page of source A are the
    entries made of the first four sentence-list items of the page, in page
    order: as many entries as the page has items, and four when it has four
    or more.  The field is absent exactly when the page has no item. *)
Theorem sentences_first_four h :
  let result := run (client_def_hd_hd ∅) h in
  entries "sentences" result
    = run (Cheerio.map sentence_item (take 4 (sentence_lists h))) h
  ∧ length (entries "sentences" result) = (length (sentence_lists h) `min` 4)%nat
  ∧ (result !! "sentences" = None ↔ sentence_lists h = []).
Proof.
  cbn zeta. rewrite client_def_hd_hd_steps. cbn zeta. unfold entries.
  rewrite set_sentences_value.
  rewrite set_infs_frame, set_cdef_frame, set_phsym_frame by done.
  rewrite lookup_insert_ne, lookup_empty by done.
  destruct (sentence_lists h) as [|el els] eqn:Hs; [done|].
  split; [done|]. split; [|done].
  unfold run. rewrite cheerio_map_length, length_take. lia.
Qed.

(** C6. The [cdef] of a full-definition page of source A is made, in page
    order, of the definition bars that contain no word-tag marker, each as
    the pair of the texts of its title bar and of its list, and of these
    only the pairs with two non-empty parts; the field is absent when no
    pair is left.  A bar with a word-tag marker gives no entry, wherever it
    stands among the bars. *)
Theorem cdef_without_word_tag_bars h :
  run (client_def_hd_hd ∅) h !! "cdef"
    = match concise_definitions h with
      | [] => None
      | l => Some (VArr (List.map cdef_entry l))
      end
  ∧ ∀ pos def,
      (pos, def) ∈ concise_definitions h ↔
      ∃ bar, bar ∈ definition_bars h ∧ has_word_tag h bar = false
             ∧ bar_pair h bar = (pos, def) ∧ pos ≠ [] ∧ def ≠ [].
Proof.
  split.
  - rewrite client_def_hd_hd_steps. cbn zeta.
    rewrite set_sentences_frame, set_infs_frame by done.
    apply set_cdef_value. by rewrite set_phsym_frame.
  - intros pos def. unfold concise_definitions.
    rewrite list_elem_of_In, List.filter_In, List.in_map_iff. cbn [fst snd].
    split.
    + intros [(bar & Hb & Hin) Hne]. apply List.filter_In in Hin as [Hin Ht].
      exists bar. rewrite list_elem_of_In.
      apply andb_prop in Hne as [Hp Hd].
      repeat split; try done.
      * by destruct (has_word_tag h bar).
      * by destruct pos.
      * by destruct def.
    + intros (bar & Hin & Ht & Hb & Hp & Hd). split.
      * exists bar. split; [done|]. apply List.filter_In.
        rewrite <- list_elem_of_In. by rewrite Ht.
      * by destruct pos, def.
Qed.

(** C5. When a page of source B has the typo marker, the record has the
    single field [list], the text of the marker; the page is left as it was
    loaded, and the record is not the one the full-definition extractor
    makes of the page. *)
Theorem typo_only_list h :
  present ".error-typo" h = true →
  extract (js "youdao") h
    = ({["list" := VStr (run (Cheerio.query (sel ".error-typo") ≫= Cheerio.text) h)]},
       h)
  ∧ run (extract (js "youdao")) h ≠ run (handle_youdao ∅) h.
Proof.
  intros Hp. unfold present in Hp.
  assert (extract (js "youdao") h
    = ({["list" := VStr (run (Cheerio.query (sel ".error-typo") ≫= Cheerio.text) h)]},
       h)) as Heq.
  { rewrite extract_youdao, query_text_eq.
    by destruct (select_all _ (document h)). }
  split; [done|]. unfold run at 1. rewrite Heq. cbn [fst].
  destruct (handle_youdao_fields ∅ h) as (sentence & translation & ->).
  cbn zeta. intros Hr %(f_equal (lookup "title")).
  by simplify_map_eq.
Qed.


(** C4, as the program has it.  [stars] is read off the class attribute of
    the first star-rating marker: when the attribute has a digit, [stars] is
    the text of its first run of digits (a string, whose numeric value the
    renderer uses); when there is no marker or no digit, [stars] is the
    number 0.  For the attribute "star star4" it is the string "4", of
    numeric value 4. *)
Theorem stars_first_digit_run result h :
  let class := run (Cheerio.query (sel ".star") ≫= Cheerio.attr (js "class")) h in
  let stars := run (handle_youdao result) h !! "stars" in
  match class ≫= match_digits with
  | Some m =>
      stars = Some (VStr m) ∧ to_number (VStr m) = Some (digits_value m)
      ∧ ∃ c pre post,
          class = Some c ∧ c = pre ++ m ++ post
          ∧ forallb (λ c, negb (js_digit c)) pre = true
          ∧ m ≠ [] ∧ forallb js_digit m = true
          ∧ match post with c :: _ => js_digit c = false | [] => True end
  | None =>
      stars = Some (VNum 0)
      ∧ match class with
        | Some c => forallb (λ c, negb (js_digit c)) c = true
        | None => True
        end
  end
  ∧ stars_of (Some (js "star star4")) = VStr (js "4")
  ∧ to_number (VStr (js "4")) = Some 4%Z.
Proof.
  cbn zeta. split; [|by split].
  destruct (handle_youdao_fields result h) as (sentence & translation & ->).
  cbn zeta. rewrite !lookup_insert_ne, lookup_insert_eq by done.
  unfold stars_of.
  destruct (run (Cheerio.query _ ≫= Cheerio.attr _) h) as [c|]; [|done].
  cbn [mbind option_bind].
  destruct (match_digits c) as [m|] eqn:Hm.
  - apply match_digits_some in Hm as (pre & post & -> & Hpre & Hne & Hd & Hpost).
    split; [done|]. split; [cbn; by rewrite Hd|].
    by exists (pre ++ m ++ post), pre, post.
  - split; [done|]. by apply match_digits_none.
Qed.

(** C7. For a response that is not ok, [text] ends the process with status
    1 after writing one message in red: the text of the [.sc_error] marker
    when the body starts with "<!" and that text is not empty, else the body
    when it is not empty, else the status text.  [text] is total: a response
    that is ok gives its body. *)
Theorem text_describes_error response :
  let marker :=
    run (Cheerio.query (sel ".sc_error") ≫= Cheerio.text)
        (boot (load (body response))) in
  text response =
    if ok response then Return (body response)
    else Exit (red (if startsWith (js "<!") (body response) && nonempty marker
                    then marker
                    else if nonempty (body response) then body response
                    else statusText response)) 1.
Proof.
  cbn zeta. unfold text. destruct (ok response); [done|]. cbn [negb].
  destruct (startsWith _ (body response)) eqn:Hs; [|done].
  cbn [andb]. destruct (nonempty (run _ _)) eqn:Hm; [by rewrite Hm|].
  reflexivity.
Qed.

(** C8, as the program has it.  A page without any known marker gives a
    record that is no hit ([!result.title] holds): for source A no extractor
    runs and the record stays empty; for source B the full-definition
    extractor runs and, the headword marker being absent, sets [title] to
    the empty string. *)
Theorem no_marker_no_result h :
  (present ".client_def_hd_hd" h = false →
   present ".client_trans_head" h = false →
   present ".client_do_you_mean_title_bar" h = false →
   extract (js "bing") h = (∅, h) ∧ no_result ∅ = true)
  ∧ (present ".error-typo" h = false →
     present ".keyword" h = false →
     let result := run (extract (js "youdao")) h in
     result !! "title" = Some (VStr []) ∧ no_result result = true).
Proof.
  split.
  - intros H1 H2 H3. split; [|done]. rewrite extract_bing.
    unfold present in H1, H2, H3.
    by repeat destruct (select_all _ (document h)).
  - intros H1 H2. cbn zeta. unfold run at 1 2. rewrite extract_youdao.
    unfold present in H1, H2.
    destruct (select_all (sel ".error-typo") _); [|done].
    fold (run (handle_youdao ∅) h).
    destruct (handle_youdao_fields ∅ h) as (sentence & translation & ->).
    cbn zeta. unfold no_result.
    rewrite !lookup_insert_ne, lookup_insert_eq by done.
    rewrite query_text_eq.
    by destruct (select_all (sel ".keyword") _).
Qed.

End claims.

(** ** The record does not depend on node identities *)

Lemma node_induction (P : node → Prop) :
  (∀ i s, P (Text i s)) →
  (∀ i t a ch, Forall P ch → P (Elem i t a ch)) →
  ∀ n, P n.
Proof.
  intros HT HE. fix IH 1. intros [i s|i t a ch]; [apply HT|].
  apply HE. induction ch as [|c ch IHch]; constructor; [apply IH|apply IHch].
Qed.

Lemma dom_induction (P : dom → Prop) :
  (∀ s, P (DText s)) →
  (∀ t a ch, Forall P ch → P (DElem t a ch)) →
  ∀ d, P d.
Proof.
  intros HT HE. fix IH 1. intros [s|t a ch]; [apply HT|].
  apply HE. induction ch as [|c ch IHch]; constructor; [apply IH|apply IHch].
Qed.

Section identities.
Variable k : nat.

Lemma node_id_shift n : node_id (shift k n) = node_id n + k.
Proof. by destruct n. Qed.

Lemma node_children_shift n :
  node_children (shift k n) = List.map (shift k) (node_children n).
Proof. by destruct n. Qed.

Lemma node_attribs_shift n : node_attribs (shift k n) = node_attribs n.
Proof. by destruct n. Qed.

Lemma matches_shift s n : matches s (shift k n) = matches s n.
Proof. by destruct n. Qed.

Lemma hits_shift n p : hits (shift k n) p = hits n p.
Proof. destruct p as [|s [|]]; cbn; auto using matches_shift. Qed.

Lemma advance_shift n p : advance (shift k n) p = advance n p.
Proof. destruct p as [|s [|]]; cbn; by rewrite ?matches_shift. Qed.

Lemma text_of_shift n : text_of (shift k n) = text_of n.
Proof.
  induction n as [|i t a ch IH] using node_induction; [done|].
  cbn. f_equal. rewrite List.map_map. apply List.map_ext_Forall, IH.
Qed.

Lemma erase_shift n : erase (shift k n) = erase n.
Proof.
  induction n as [|i t a ch IH] using node_induction; [done|].
  cbn. f_equal. rewrite List.map_map. apply List.map_ext_Forall, IH.
Qed.

Lemma concat_map_shift {A B} (f g : A → list B) (r : B → B) l :
  Forall (λ x, g x = List.map r (f x)) l →
  concat (List.map g l) = List.map r (concat (List.map f l)).
Proof.
  induction 1 as [|x l Hx _ IH]; [done|].
  cbn. by rewrite List.map_app, Hx, IH.
Qed.

Lemma select_shift ps n :
  select ps (shift k n) = List.map (λ i, i + k) (select ps n).
Proof.
  revert ps. induction n as [|i t a ch IH] using node_induction; [done|].
  intros ps. change (shift k (Elem i t a ch))
    with (Elem (i + k) t a (List.map (shift k) ch)).
  cbn [select].
  change (Elem (i + k) t a (List.map (shift k) ch))
    with (shift k (Elem i t a ch)).
  rewrite (List.map_ext _ _ (advance_shift (Elem i t a ch))).
  assert (existsb (hits (shift k (Elem i t a ch))) ps
          = existsb (hits (Elem i t a ch)) ps) as ->.
  { induction ps as [|p ps IHps]; [done|]. cbn [existsb].
    by rewrite hits_shift, IHps. }
  rewrite List.map_app. f_equal; [by destruct (existsb _ ps)|].
  rewrite List.map_map. apply concat_map_shift.
  eapply Forall_impl; [exact IH|]. intros x Hx. apply Hx.
Qed.

Lemma select_all_shift ps l :
  select_all ps (List.map (shift k) l)
  = List.map (λ i, i + k) (select_all ps l).
Proof.
  unfold select_all. rewrite List.map_map. apply concat_map_shift.
  apply Forall_forall. intros n _. apply select_shift.
Qed.

Lemma locate_in_shift_aux i l :
  Forall (λ n, locate (i + k) (shift k n) = shift k <$> locate i n) l →
  locate_in (i + k) (List.map (shift k) l) = shift k <$> locate_in i l.
Proof.
  induction 1 as [|n l Hn _ IH]; [done|].
  unfold locate_in in *. cbn [List.map foldr]. rewrite Hn, IH.
  by destruct (locate i n).
Qed.

Lemma locate_shift i n :
  locate (i + k) (shift k n) = shift k <$> locate i n.
Proof.
  induction n as [j s|j t a ch IH] using node_induction.
  - cbn. replace (j + k =? i + k)%nat with (j =? i)%nat; [by destruct (j =? i)%nat|].
    destruct (Nat.eqb_spec j i), (Nat.eqb_spec (j + k) (i + k)); lia || done.
  - change (shift k (Elem j t a ch))
      with (Elem (j + k) t a (List.map (shift k) ch)).
    cbn [locate node_id].
    replace (j + k =? i + k)%nat with (j =? i)%nat.
    2:{ destruct (Nat.eqb_spec j i), (Nat.eqb_spec (j + k) (i + k)); lia || done. }
    destruct (j =? i)%nat; [done|].
    apply (locate_in_shift_aux i ch IH).
Qed.

Lemma locate_in_shift i l :
  locate_in (i + k) (List.map (shift k) l) = shift k <$> locate_in i l.
Proof.
  apply locate_in_shift_aux, Forall_forall. intros n _. apply locate_shift.
Qed.

Lemma node_of_shift i h :
  node_of (i + k) (shift_heap k h) = shift k <$> node_of i h.
Proof.
  unfold node_of, shift_heap. cbn [document detached].
  rewrite <- List.map_app. apply locate_in_shift.
Qed.

Lemma is_some_fmap {A B} (f : A → B) (o : option A) :
  is_some (f <$> o) = is_some o.
Proof. by destruct o. Qed.

Lemma has_parent_shift i h :
  has_parent (i + k) (shift_heap k h) = has_parent i h.
Proof.
  unfold has_parent, shift_heap. cbn [document detached].
  rewrite locate_in_shift, is_some_fmap. f_equal.
  induction (detached h) as [|r l IH]; [done|]. cbn [List.map existsb].
  by rewrite node_children_shift, locate_in_shift, is_some_fmap, IH.
Qed.

Lemma replace_node_shift i new n :
  replace_node (i + k) (List.map (shift k) new) (shift k n)
  = List.map (shift k) (replace_node i new n).
Proof.
  induction n as [j s|j t a ch IH] using node_induction.
  - cbn. replace (j + k =? i + k)%nat with (j =? i)%nat; [by destruct (j =? i)%nat|].
    destruct (Nat.eqb_spec j i), (Nat.eqb_spec (j + k) (i + k)); lia || done.
  - change (shift k (Elem j t a ch))
      with (Elem (j + k) t a (List.map (shift k) ch)).
    cbn [replace_node node_id].
    replace (j + k =? i + k)%nat with (j =? i)%nat.
    2:{ destruct (Nat.eqb_spec j i), (Nat.eqb_spec (j + k) (i + k)); lia || done. }
    destruct (j =? i)%nat; [done|]. cbn [List.map shift]. do 2 f_equal.
    rewrite List.map_map. by apply concat_map_shift.
Qed.

Lemma replace_in_shift i new l :
  replace_in (i + k) (List.map (shift k) new) (List.map (shift k) l)
  = List.map (shift k) (replace_in i new l).
Proof.
  unfold replace_in. rewrite List.map_map. apply concat_map_shift.
  apply Forall_forall. intros n _. apply replace_node_shift.
Qed.

Lemma replace_below_shift i new n :
  replace_below (i + k) (List.map (shift k) new) (shift k n)
  = shift k (replace_below i new n).
Proof.
  destruct n as [|j t a ch]; [done|]. cbn. f_equal. apply replace_in_shift.
Qed.

Lemma label_all_shift_aux l :
  Forall (λ d, ∀ j, label d (j + k) = (shift k (label d j).1, (label d j).2 + k)) l →
  ∀ j, label_all l (j + k)
       = (List.map (shift k) (label_all l j).1, (label_all l j).2 + k).
Proof.
  induction 1 as [|d l Hd _ IH]; intros j; [done|].
  cbn [label_all]. rewrite Hd. destruct (label d j) as [x k1]. cbn [fst snd].
  rewrite IH. by destruct (label_all l k1).
Qed.

Lemma label_as_label_all t a ch j :
  label (DElem t a ch) j
  = (Elem j t a (label_all ch (S j)).1, (label_all ch (S j)).2).
Proof.
  cbn [label].
  assert (∀ l i,
    (fix go (l : list dom) (k : ref) : list node * ref :=
       match l with
       | [] => ([], k)
       | x :: r => let '(x', k1) := label x k in
                   let '(r', k2) := go r k1 in (x' :: r', k2)
       end) l i = label_all l i) as ->.
  { induction l as [|x r IH]; intros i; [done|]. cbn [label_all].
    destruct (label x i). by rewrite IH. }
  by destruct (label_all ch (S j)).
Qed.

Lemma label_shift d j :
  label d (j + k) = (shift k (label d j).1, (label d j).2 + k).
Proof.
  revert j. induction d as [s|t a ch IH] using dom_induction; intros j.
  - reflexivity.
  - rewrite !label_as_label_all. cbn [fst snd shift].
    change (S (j + k)) with (S j + k). by rewrite (label_all_shift_aux ch IH).
Qed.

Lemma label_all_shift l j :
  label_all l (j + k)
  = (List.map (shift k) (label_all l j).1, (label_all l j).2 + k).
Proof.
  apply label_all_shift_aux, Forall_forall. intros d _. apply label_shift.
Qed.

Lemma boot_from_shift page : boot_from k page = shift_heap k (boot page).
Proof.
  unfold boot, boot_from, shift_heap. cbn [document detached next_id].
  change k with (0 + k) at 1 2. by rewrite label_all_shift.
Qed.

End identities.

Section simulation.
Context `{Lib}.
Variable k : nat.

Abbreviation ups := (List.map (λ i : ref, i + k)).

Lemma same_ret {A} (a : A) : same_up_to k id (mret a) (mret a).
Proof. intros h. reflexivity. Qed.

Lemma same_bind {A B} (ρ : A → A) (σ : B → B) (m m' : M A) (f f' : A → M B) :
  same_up_to k ρ m m' →
  (∀ a, same_up_to k σ (f a) (f' (ρ a))) →
  same_up_to k σ (m ≫= f) (m' ≫= f').
Proof. intros Hm Hf h. rewrite !bind_eq, Hm. cbn [fst snd]. apply Hf. Qed.

Lemma same_if {A} (ρ : A → A) (b : bool) (m1 m1' m2 m2' : M A) :
  same_up_to k ρ m1 m1' → same_up_to k ρ m2 m2' →
  same_up_to k ρ (if b then m1 else m2) (if b then m1' else m2').
Proof. by destruct b. Qed.

Lemma same_query s : same_up_to k ups (Cheerio.query s) (Cheerio.query s).
Proof.
  intros h. unfold Cheerio.query, gets. cbn [fst snd]. f_equal.
  apply select_all_shift.
Qed.

Lemma same_find s el :
  same_up_to k ups (Cheerio.find s el) (Cheerio.find s (el + k)).
Proof.
  intros h. unfold Cheerio.find, gets. cbn [fst snd]. f_equal.
  rewrite node_of_shift. destruct (node_of el h) as [n|]; [|done].
  cbn [fmap option_fmap option_map]. rewrite node_children_shift.
  apply select_all_shift.
Qed.

Lemma same_text els :
  same_up_to k id (Cheerio.text els) (Cheerio.text (ups els)).
Proof.
  intros h. unfold Cheerio.text, gets. cbn [fst snd id]. do 2 f_equal.
  rewrite List.map_map. apply List.map_ext. intros el.
  rewrite node_of_shift. destruct (node_of el h) as [n|]; [|done].
  apply text_of_shift.
Qed.

Lemma same_text_of el :
  same_up_to k id (Cheerio.text [el]) (Cheerio.text [el + k]).
Proof. apply (same_text [el]). Qed.

Lemma same_html els :
  same_up_to k id (Cheerio.html els) (Cheerio.html (ups els)).
Proof.
  intros h. unfold Cheerio.html, gets. cbn [fst snd id]. f_equal.
  destruct els as [|el els]; [done|]. cbn [List.map].
  rewrite node_of_shift. destruct (node_of el h) as [n|]; [|done].
  cbn. rewrite node_children_shift, List.map_map.
  do 2 f_equal. apply List.map_ext, erase_shift.
Qed.

Lemma same_attr name els :
  same_up_to k id (Cheerio.attr name els) (Cheerio.attr name (ups els)).
Proof.
  intros h. unfold Cheerio.attr, gets. cbn [fst snd id]. f_equal.
  destruct els as [|el els]; [done|]. cbn [List.map].
  rewrite node_of_shift. destruct (node_of el h) as [n|]; [|done].
  cbn. by rewrite node_attribs_shift.
Qed.

Lemma same_map {B} (fn fn' : ref → M B) els :
  (∀ el, same_up_to k id (fn el) (fn' (el + k))) →
  same_up_to k id (Cheerio.map fn els) (Cheerio.map fn' (ups els)).
Proof.
  intros Hfn. induction els as [|el r IH]; [apply same_ret|].
  cbn [Cheerio.map List.map].
  eapply same_bind; [apply Hfn|]. intros x.
  eapply same_bind; [apply IH|]. intros xs. apply same_ret.
Qed.

Lemma same_filter (fn fn' : ref → M bool) els :
  (∀ el, same_up_to k id (fn el) (fn' (el + k))) →
  same_up_to k ups (Cheerio.filter fn els) (Cheerio.filter fn' (ups els)).
Proof.
  intros Hfn. induction els as [|el r IH]; [by intros h|].
  cbn [Cheerio.filter List.map].
  eapply same_bind; [apply Hfn|]. intros b.
  eapply same_bind; [apply IH|]. intros xs h. by destruct b.
Qed.

Lemma same_each (fn fn' : ref → M unit) els :
  (∀ el, same_up_to k id (fn el) (fn' (el + k))) →
  same_up_to k id (Cheerio.each fn els) (Cheerio.each fn' (ups els)).
Proof.
  intros Hfn. induction els as [|el r IH]; [apply same_ret|].
  cbn [Cheerio.each List.map].
  eapply same_bind; [apply Hfn|]. intros _. apply IH.
Qed.

Lemma same_put_in_place el content :
  same_up_to k id (Cheerio.put_in_place el content)
                  (Cheerio.put_in_place (el + k) content).
Proof.
  intros h. unfold Cheerio.put_in_place. rewrite node_of_shift.
  destruct (node_of el h) as [old|]; [|done].
  cbn [fmap option_fmap option_map fst snd id]. f_equal.
  change (next_id (shift_heap k h)) with (next_id h + k).
  rewrite label_all_shift. unfold shift_heap. cbn [fst snd document detached next_id].
  f_equal.
  - apply replace_in_shift.
  - rewrite List.map_app, !List.map_map.
    cbn [List.map]. f_equal. apply List.map_ext. intros n.
    apply replace_below_shift.
Qed.

Lemma same_replaceWith (fn fn' : ref → M jsstring) els :
  (∀ el, same_up_to k id (fn el) (fn' (el + k))) →
  same_up_to k id (Cheerio.replaceWith fn els) (Cheerio.replaceWith fn' (ups els)).
Proof.
  intros Hfn. unfold Cheerio.replaceWith. apply same_each. intros el.
  eapply (same_bind id).
  { intros h. unfold gets. cbn [fst snd id]. by rewrite has_parent_shift. }
  intros p. unfold id. destruct p; [|apply same_ret].
  eapply same_bind; [apply Hfn|]. intros c. apply same_put_in_place.
Qed.

End simulation.

Create HintDb same.

Ltac same_step :=
  cbn [id]; rewrite ?List.length_map;
  first
    [ solve [auto 1 with same]
    | lazymatch goal with
      | |- same_up_to _ _ (mret _) _ => apply same_ret
      | |- same_up_to _ _ (_ ≫= _) _ => eapply same_bind; [|intros ?; cbn beta]
      | |- same_up_to _ _ (Cheerio.query _) _ => apply same_query
      | |- same_up_to _ _ (Cheerio.find _ _) _ => apply same_find
      | |- same_up_to _ _ (Cheerio.text [_]) _ => apply same_text_of
      | |- same_up_to _ _ (Cheerio.text _) _ => apply same_text
      | |- same_up_to _ _ (Cheerio.html _) _ => apply same_html
      | |- same_up_to _ _ (Cheerio.attr _ _) _ => apply same_attr
      | |- same_up_to _ _ (Cheerio.map _ _) _ =>
          apply same_map; intros ?; cbn beta
      | |- same_up_to _ _ (Cheerio.filter _ _) _ =>
          apply same_filter; intros ?; cbn beta
      | |- same_up_to _ _ (Cheerio.replaceWith _ _) _ =>
          apply same_replaceWith; intros ?; cbn beta
      | |- same_up_to _ _ (if _ then _ else _) _ =>
          apply same_if
      end ].

Ltac same := repeat same_step.

Section program_identities.
Context `{Lib}.
Variable k : nat.

Lemma same_sentence_item el :
  same_up_to k id (sentence_item el) (sentence_item (el + k)).
Proof. unfold sentence_item. same. Qed.

Lemma same_no_word_tag el :
  same_up_to k id (no_word_tag el) (no_word_tag (el + k)).
Proof. unfold no_word_tag. same. Qed.

Lemma same_pos_def el : same_up_to k id (pos_def el) (pos_def (el + k)).
Proof. unfold pos_def. same. Qed.

Lemma same_meaning el : same_up_to k id (meaning el) (meaning (el + k)).
Proof. unfold meaning. same. Qed.

Lemma same_normalized_text el :
  same_up_to k id (normalized_text el) (normalized_text (el + k)).
Proof. unfold normalized_text. same. Qed.

Lemma same_authority_item el :
  same_up_to k id (authority_item el) (authority_item (el + k)).
Proof. unfold authority_item. same. Qed.

#[local] Hint Resolve same_sentence_item same_no_word_tag same_pos_def
  same_meaning same_normalized_text same_authority_item : same.

Lemma same_client_def_hd_hd result :
  same_up_to k id (client_def_hd_hd result) (client_def_hd_hd result).
Proof.
  unfold client_def_hd_hd, set_phsym, set_cdef, set_infs, set_sentences. same.
Qed.

Lemma same_client_trans_head result :
  same_up_to k id (client_trans_head result) (client_trans_head result).
Proof. unfold client_trans_head. same. Qed.

Lemma same_suggestion_area result area :
  same_up_to k id (suggestion_area result area) (suggestion_area result (area + k)).
Proof. unfold suggestion_area. same. Qed.

Lemma same_each_area areas result :
  same_up_to k id (each_area result areas)
                  (each_area result (List.map (λ i, i + k) areas)).
Proof.
  revert result. induction areas as [|area r IH]; intros result; [apply same_ret|].
  cbn [each_area List.map].
  eapply same_bind; [apply same_suggestion_area|]. intros a. apply IH.
Qed.

#[local] Hint Resolve same_each_area : same.

Lemma same_client_do_you_mean_title_bar result :
  same_up_to k id (client_do_you_mean_title_bar result)
                  (client_do_you_mean_title_bar result).
Proof. unfold client_do_you_mean_title_bar. same. Qed.

Lemma same_handle_youdao result :
  same_up_to k id (handle_youdao result) (handle_youdao result).
Proof. unfold handle_youdao. same. Qed.

#[local] Hint Resolve same_client_def_hd_hd same_client_trans_head
  same_client_do_you_mean_title_bar same_handle_youdao : same.

Lemma same_extract dict : same_up_to k id (extract dict) (extract dict).
Proof. unfold extract. same. Qed.

End program_identities.

(** ** The claims at concrete pages *)

Lemma bing_first_marker_wins_witness :
  present ".client_def_hd_hd" (boot hello_page) = true
  ∧ present ".client_do_you_mean_title_bar" (boot hello_page) = true
  ∧ ∀ k, is_Some (run (extract (H := plain) (js "bing")) (boot hello_page) !! k) →
         k ∈ ["title"; "phsym"; "cdef"; "infs"; "sentences"].
Proof.
  split; [reflexivity|]. split; [reflexivity|].
  apply (proj2 (bing_first_marker_wins (H := plain) (boot hello_page))).
  reflexivity.
Defined.

Lemma typo_only_list_witness :
  extract (H := plain) (js "youdao") (boot typo_page)
    = ({["list" := VStr typo_text]}, boot typo_page).
Proof.
  apply (proj1 (typo_only_list (H := plain) (boot typo_page) eq_refl)).
Defined.

(** C1, pages on which the claim fails.  On a page of source B without any
    marker, [rank], [pattern], [prons], [discrimination] and [translation]
    are kept as empty strings, [basic] and [sentence] as empty sequences,
    and [stars] is present (the number 0) although the page has no star
    marker.  On a page of source B whose typo marker has no text, [list] is
    kept as the empty string.  On a page of source A with the
    suggestion-title marker and no suggestion area, [defs] is kept as the
    empty sequence.  On pages of source A whose phonetic symbol, or whose
    part of speech and definition, are a space, [phsym] and [cdef] are kept
    although their texts normalize to the empty string. *)
Lemma empty_fields_are_kept :
  Forall (kept_empty (run (extract (H := plain) (js "youdao")) (boot blank_page)))
    ["rank"; "pattern"; "prons"; "basic"; "discrimination"; "sentence";
     "translation"]
  ∧ run (extract (H := plain) (js "bing")) (boot space_page) !! "phsym"
    = Some (VStr (js " "))
  ∧ normalize (js " ") = []
  ∧ run (extract (H := plain) (js "youdao")) (boot blank_page) !! "stars"
    = Some (VNum 0)
  ∧ kept_empty (run (extract (H := plain) (js "youdao")) (boot empty_typo_page))
      "list"
  ∧ kept_empty (run (extract (H := plain) (js "bing")) (boot bare_suggestion_page))
      "defs"
  ∧ run (extract (H := plain) (js "bing")) (boot blank_bar_page) !! "cdef"
    = Some (VArr [VObj [("pos", VStr (js " ")); ("def", VStr (js " "))]]).
Proof.
  split.
  { repeat constructor; (by left; vm_compute) || (by right; vm_compute). }
  split; [by vm_compute|]. split; [by vm_compute|]. split; [by vm_compute|].
  split; [by left; vm_compute|]. split; [by right; vm_compute|]. by vm_compute.
Qed.

(** C4, a page on which the claim fails: for the class attribute
    "star star4", [stars] is the string "4" and not the integer 4. *)
Lemma stars_is_a_string :
  let result := run (extract (H := plain) (js "youdao")) (boot star4_page) in
  result !! "stars" = Some (VStr (js "4")) ∧ result !! "stars" ≠ Some (VNum 4).
Proof. cbn zeta. split; [by vm_compute|]. vm_compute. discriminate. Qed.

Lemma no_marker_no_result_witness :
  (extract (H := plain) (js "bing") (boot blank_page) = (∅, boot blank_page)
   ∧ no_result ∅ = true)
  ∧ (let result := run (extract (H := plain) (js "youdao")) (boot blank_page) in
     result !! "title" = Some (VStr []) ∧ no_result result = true).
Proof.
  pose proof (no_marker_no_result (H := plain) (boot blank_page)) as [HA HB].
  split; [apply HA | apply HB]; reflexivity.
Defined.

(** C8, a page on which the claim fails: on a page of source B without any
    marker the record has a [title] field, the empty string. *)
Lemma blank_title_is_present :
  let result := run (extract (H := plain) (js "youdao")) (boot blank_page) in
  result !! "title" ≠ None ∧ result !! "title" = Some (VStr []).
Proof. cbn zeta. split; [vm_compute; discriminate | by vm_compute]. Qed.

(** The scenario of a failed transport with an empty body. *)
Example service_unavailable :
  text (H := plain)
       {| ok := false; body := []; statusText := js "Service Unavailable" |}
  = Exit (js "Service Unavailable") 1.
Proof. reflexivity. Qed.

(** The extractor of source B changes the page it reads: the citation of an
    example sentence is cut out of the tree, so a second pass over the same
    tree makes another record.  A run gets the same record again because it
    parses the text anew. *)
Example extraction_changes_the_page :
  (handle_youdao (H := plain) ∅ (boot example_page)).2 ≠ boot example_page
  ∧ run (handle_youdao (H := plain) ∅;; handle_youdao (H := plain) ∅)
        (boot example_page)
    ≠ run (handle_youdao (H := plain) ∅) (boot example_page).
Proof.
  split.
  - intros Hh %(f_equal detached). vm_compute in Hh. discriminate.
  - intros Hr %(f_equal (lookup "sentence")). vm_compute in Hr. discriminate.
Qed.

(** The scenario of a page of source A for hello: the bar with the word tag
    gives no entry, and the suggestion-title marker is not acted on. *)
Example hello_record :
  run (extract (H := plain) (js "bing")) (boot hello_page)
  = <["title" := VStr (js "hello")]>
      (<["phsym" := VStr hello_ipa]>
      {["cdef" := VArr [VObj [("pos", VStr (js "int."));
                              ("def", VStr (js "used as a greeting"))]]]}).
Proof. by vm_compute. Qed.

(** The scenario of a failed transport whose body is an error page: whatever
    the parser, when it reads the body as a tree with the error marker. *)
Example rate_limited `{Lib} rest :
  load (js "<!doctype html>" ++ rest)
    = [el "html" "" [el "span" "sc_error" [txt "Rate limited"]]] →
  text {| ok := false; body := js "<!doctype html>" ++ rest;
          statusText := js "Too Many Requests" |}
  = Exit (red (js "Rate limited")) 1.
Proof.
  intros Hload. unfold text. cbn [ok body statusText negb].
  rewrite Hload. reflexivity.
Qed.

(** Of five sentence-list items the first four are kept. *)
Example five_sentences :
  entries "sentences"
    (run (extract (H := plain) (js "bing")) (boot five_sentences_page))
  = List.map (λ e, VObj [("en", VStr (js e.1)); ("chs", VStr (js e.2));
                         ("source", VStr [])])
      [("one", "1"); ("two", "2"); ("three", "3"); ("four", "4")].
Proof. by vm_compute. Qed.

(** * Further properties of the program *)

(** ** What the normalizer leaves of a text *)

Lemma collapsed_lookup t i c :
  collapsed t → t !! i = Some c → js_space c = true →
  c = SPACE ∧ match t !! S i with Some d => js_space d = false | None => True end.
Proof.
  revert i. induction t as [|a r IH]; intros i Ht Hi Hc; [done|].
  destruct Ht as [Ha Hr]. destruct i as [|i].
  - injection Hi as ->. destruct (Ha Hc) as [-> Hn]. split; [done|].
    by destruct r.
  - by apply (IH i).
Qed.

Lemma trim_end_last s i c :
  trim_end s !! i = Some c → js_space c = true → is_Some (trim_end s !! S i).
Proof.
  revert i. induction s as [|a r IH]; intros i; [done|]. cbn [trim_end].
  destruct (trim_end r) as [|c' t] eqn:Et.
  - destruct (js_space a) eqn:Ea; [done|].
    destruct i; [|done]. intros [= <-]. congruence.
  - destruct i as [|i]; [by eauto|]. intros Hi Hc. by apply (IH i).
Qed.

Lemma normalize_head s :
  match normalize s with c :: _ => js_space c = false | [] => True end.
Proof.
  unfold normalize, trim.
  pose proof (trim_start_head (replace_spaces s)) as Hh.
  destruct (trim_end _) as [|c t] eqn:Et; [done|].
  apply trim_end_head in Et as [t0 Et]. by rewrite Et in Hh.
Qed.

Lemma replace_runs_text f s :
  List.filter not_space (replace_runs f s) = List.filter not_space s.
Proof.
  revert f. induction s as [|c r IH]; intros f; [done|].
  cbn [replace_runs List.filter]. destruct (js_space c) eqn:Hc; cbn [negb].
  - destruct f; [apply IH|]. cbn [List.filter].
    rewrite js_space_SPACE. apply IH.
  - cbn [List.filter]. rewrite Hc. cbn [negb]. f_equal. apply IH.
Qed.

Lemma trim_start_text s :
  List.filter not_space (trim_start s) = List.filter not_space s.
Proof.
  induction s as [|c r IH]; [done|]. cbn [trim_start List.filter].
  destruct (js_space c) eqn:Hc; cbn [negb]; [done|].
  cbn [List.filter]. by rewrite Hc.
Qed.

Lemma trim_end_text s :
  List.filter not_space (trim_end s) = List.filter not_space s.
Proof.
  induction s as [|c r IH]; [done|]. cbn [trim_end List.filter].
  destruct (trim_end r) as [|c' t].
  - rewrite <- IH. destruct (js_space c) eqn:Hc; cbn [negb]; [done|].
    cbn [List.filter]. by rewrite Hc.
  - cbn [List.filter]. cbn [List.filter] in IH. by rewrite IH.
Qed.

(** X1. In a normalized text every white-space code unit is an ordinary
    space that is not the first code unit and is followed by a code unit
    that is not white space: no tab or line break is left, no space at
    either end, and no two spaces in a row. *)
Theorem normalize_single_spaces (s : jsstring) (i : nat) (c : N) :
  normalize s !! i = Some c → js_space c = true →
  c = SPACE ∧ (0 < i)%nat
  ∧ ∃ d, normalize s !! S i = Some d ∧ js_space d = false.
Proof.
  intros Hi Hc.
  destruct (collapsed_lookup _ _ _ (normalize_collapsed s) Hi Hc) as [-> Hn].
  split; [done|]. split.
  - destruct i; [|lia]. pose proof (normalize_head s) as Hh.
    destruct (normalize s); [done|]. injection Hi as ->. congruence.
  - destruct (trim_end_last (trim_start (replace_spaces s)) i SPACE Hi Hc)
      as [d Hd].
    change (trim_end (trim_start (replace_spaces s))) with (normalize s) in Hd.
    rewrite Hd in Hn. by exists d.
Qed.

Lemma normalize_single_spaces_witness :
  normalize (js " a  b ") !! 1%nat = Some SPACE
  ∧ ∃ d, normalize (js " a  b ") !! 2%nat = Some d ∧ js_space d = false.
Proof.
  destruct (normalize_single_spaces (js " a  b ") 1 SPACE eq_refl eq_refl)
    as (_ & _ & Hd).
  split; [reflexivity | exact Hd].
Defined.

Lemma normalize_text s :
  List.filter not_space (normalize s) = List.filter not_space s.
Proof.
  unfold normalize, trim, replace_spaces.
  by rewrite trim_end_text, trim_start_text, replace_runs_text.
Qed.

(** X2. The normalizer keeps the code units that are not white space, all
    of them and in their order. *)
Theorem normalize_keeps_text (s : jsstring) :
  List.filter not_space (normalize s) = List.filter not_space s.
Proof. apply normalize_text. Qed.

Lemma filter_not_space_nil s :
  List.filter not_space s = [] ↔ forallb js_space s = true.
Proof.
  induction s as [|c r IH]; [done|]. cbn.
  destruct (js_space c); cbn; [apply IH|]. split; discriminate.
Qed.

(** X3. A text normalizes to the empty string exactly when it has nothing
    but white space. *)
Theorem normalize_empty_iff (s : jsstring) :
  normalize s = [] ↔ forallb js_space s = true.
Proof.
  rewrite <- filter_not_space_nil. split.
  - intros Hn. pose proof (normalize_text s) as Hk.
    by rewrite Hn in Hk.
  - intros Hs. pose proof (normalize_text s) as Hk. rewrite Hs in Hk.
    pose proof (normalize_head s) as Hh.
    destruct (normalize s) as [|c t]; [done|].
    cbn in Hk. by rewrite Hh in Hk.
Qed.

(** X20. Replacing the white-space runs by spaces, as it is done to the
    word before it is sent and to the texts before they are trimmed, is
    idempotent; in its result every white-space code unit is an ordinary
    space followed by the end or by a code unit that is not white space
    (a run at either end is kept as one space), and the code units that are
    not white space are all kept, in their order. *)
Theorem replace_spaces_once (s : jsstring) :
  replace_spaces (replace_spaces s) = replace_spaces s
  ∧ (∀ i c, replace_spaces s !! i = Some c → js_space c = true →
            c = SPACE
            ∧ match replace_spaces s !! S i with
              | Some d => js_space d = false
              | None => True
              end)
  ∧ List.filter not_space (replace_spaces s) = List.filter not_space s.
Proof.
  unfold replace_spaces. split; [apply replace_runs_fixed|]. split.
  - intros i c. apply collapsed_lookup, replace_runs_collapsed.
  - apply replace_runs_text.
Qed.

Lemma replace_spaces_once_witness :
  replace_spaces (js "  a   b ") = js " a b "
  ∧ match replace_spaces (js "  a   b ") !! 1%nat with
    | Some d => js_space d = false
    | None => True
    end.
Proof.
  split; [reflexivity|].
  exact (proj2 (proj1 (proj2 (replace_spaces_once (js "  a   b ")))
                  0%nat SPACE eq_refl eq_refl)).
Defined.

(** ** What the extractors make of a page *)

Lemma join_nil l : join [] l = concat l.
Proof.
  induction l as [|x [|y r] IH]; [done| |].
  - cbn. by rewrite app_nil_r.
  - change (join [] (x :: y :: r)) with (x ++ [] ++ join [] (y :: r)).
    by rewrite IH.
Qed.

Lemma concat_filter_nonempty l : concat (List.filter nonempty l) = concat l.
Proof.
  induction l as [|x r IH]; [done|]. cbn [List.filter].
  destruct x; cbn [nonempty]; [done|]. cbn. by rewrite IH.
Qed.

Lemma join_nonempty sep x l : nonempty x = true → join sep (x :: l) ≠ [].
Proof. destruct x; [done|]. by destruct l. Qed.

Lemma filter_nonempty_head l x r :
  List.filter nonempty l = x :: r → nonempty x = true.
Proof.
  intros Hl. assert (In x (List.filter nonempty l)) as Hin.
  { rewrite Hl. by left. }
  by apply List.filter_In in Hin as [_ Hx].
Qed.

Section more_extractors.
Context `{Lib}.

Lemma set_phsym_formula result h :
  result !! "phsym" = None →
  run (set_phsym result) h !! "phsym"
  = match concat (phonetic_texts h) with [] => None | t => Some (VStr t) end.
Proof.
  intros Hr. unfold run, set_phsym, phonetic_texts.
  rewrite readonly_bind_eq by readonly.
  change (run (Cheerio.query ?s) h) with (select_all s (document h)).
  rewrite positive_length.
  destruct (select_all _ (document h)) as [|el els]; [done|].
  rewrite bind_eq, map_readonly_eq by (intros; readonly).
  cbn [mret M_ret fst]. rewrite zero_length, join_nil, concat_filter_nonempty.
  destruct (concat _); by simplify_map_eq.
Qed.

Lemma set_infs_formula result h :
  result !! "infs" = None →
  run (set_infs result) h !! "infs"
  = match inflection_forms h with
    | [] => None
    | l => Some (VStr (join (js ", ") l))
    end.
Proof.
  intros Hr. unfold run, set_infs, inflection_forms.
  rewrite readonly_bind_eq by readonly.
  change (run (Cheerio.query ?s) h) with (select_all s (document h)).
  rewrite positive_length.
  destruct (select_all _ (document h)) as [|el els]; [done|].
  rewrite bind_eq, map_readonly_eq by (intros; readonly).
  cbn [mret M_ret fst]. rewrite zero_length.
  assert (∀ el, run (t ← Cheerio.text [el]; mret (trim t)) h
                = trim (run (Cheerio.text [el]) h)) as Hf by done.
  rewrite (List.map_ext _ _ Hf).
  destruct (List.filter nonempty _) as [|x l] eqn:Hl; [by simplify_map_eq|].
  pose proof (join_nonempty (js ", ") x l (filter_nonempty_head _ _ _ Hl)).
  destruct (join _ (x :: l)); by simplify_map_eq.
Qed.

Lemma client_def_hd_hd_title result h :
  run (client_def_hd_hd result) h !! "title"
  = Some (VStr (run (Cheerio.query (sel ".client_def_hd_hd") ≫= Cheerio.text) h)).
Proof.
  rewrite client_def_hd_hd_steps. cbn zeta.
  rewrite set_sentences_frame, set_infs_frame, set_cdef_frame, set_phsym_frame
    by done.
  apply lookup_insert_eq.
Qed.

(** X4. The [phsym] of a full-definition page of source A is the
    concatenation, in page order, of the phonetic texts of its
    pronunciation-list items: filtering the empty texts out before the join
    changes nothing.  The field is absent exactly when that concatenation
    is empty. *)
Theorem phsym_is_concatenation h :
  run (client_def_hd_hd ∅) h !! "phsym"
  = match concat (phonetic_texts h) with [] => None | t => Some (VStr t) end.
Proof.
  rewrite client_def_hd_hd_steps. cbn zeta.
  rewrite set_sentences_frame, set_infs_frame, set_cdef_frame by done.
  by apply set_phsym_formula.
Qed.

(** X5. The [infs] of a full-definition page of source A is the join with
    ", " of the trimmed texts of the inflection markers that are not empty,
    in page order; the field is absent exactly when no marker has such a
    text (the join of at least one non-empty form is never empty). *)
Theorem infs_joins_the_forms h :
  run (client_def_hd_hd ∅) h !! "infs"
  = match inflection_forms h with
    | [] => None
    | l => Some (VStr (join (js ", ") l))
    end.
Proof.
  rewrite client_def_hd_hd_steps. cbn zeta.
  rewrite set_sentences_frame by done.
  apply set_infs_formula.
  by rewrite set_cdef_frame, set_phsym_frame.
Qed.

End more_extractors.

Section suggestions_and_dispatch.
Context `{Lib}.

Lemma suggestion_area_eq result area h :
  suggestion_area result area h
  = (if has_suggestion_list h area
     then push "defs" (suggestion_entry h area) result else result, h).
Proof.
  unfold suggestion_area, has_suggestion_list, suggestion_lists.
  rewrite readonly_bind_eq by readonly. rewrite positive_length.
  destruct (run (Cheerio.find _ area) h) as [|el els] eqn:Hl; [done|].
  rewrite readonly_bind_eq by readonly.
  rewrite bind_eq, map_readonly_eq by apply meaning_readonly.
  cbn [mret M_ret fst snd]. unfold suggestion_entry, suggestion_lists.
  rewrite Hl. do 5 f_equal.
Qed.

Lemma each_area_eq areas result l h :
  result !! "defs" = Some (VArr l) →
  each_area result areas h
  = (<["defs" := VArr (l ++ List.map (suggestion_entry h)
                              (List.filter (has_suggestion_list h) areas))]> result,
     h).
Proof.
  revert result l. induction areas as [|area r IH]; intros result l Hr.
  - cbn. by rewrite app_nil_r, insert_id.
  - cbn [each_area]. rewrite bind_eq, suggestion_area_eq. cbn [fst snd List.filter].
    destruct (has_suggestion_list h area); [|by apply IH].
    unfold push. rewrite Hr.
    rewrite (IH _ (l ++ [suggestion_entry h area])) by apply lookup_insert_eq.
    rewrite insert_insert_eq. cbn [List.map]. by rewrite <- app_assoc.
Qed.

Lemma suggestions_record_eq h :
  client_do_you_mean_title_bar ∅ h
  = (<["defs" := VArr (List.map (suggestion_entry h)
                         (List.filter (has_suggestion_list h) (suggestion_areas h)))]>
       {["title" := VStr (run (Cheerio.query (sel ".client_do_you_mean_title_bar")
                                 ≫= Cheerio.text) h)]},
     h).
Proof.
  unfold client_do_you_mean_title_bar.
  rewrite !readonly_bind_eq by readonly.
  rewrite bind_eq. rewrite (each_area_eq _ _ []) by apply lookup_insert_eq.
  cbn [mret M_ret fst snd app]. rewrite insert_insert_eq, insert_empty.
  reflexivity.
Qed.

(** X6. The suggestion extractor of source A makes a record of two fields:
    [title], the text of the suggestion-title marker, and [defs], with one
    entry for every suggestion area that contains a suggestion list, in page
    order (the title of the area and one meaning for every list); an area
    without a list gives no entry.  It leaves the page as it was. *)
Theorem suggestions_record h :
  client_do_you_mean_title_bar ∅ h
  = (<["defs" := VArr (List.map (suggestion_entry h)
                         (List.filter (has_suggestion_list h) (suggestion_areas h)))]>
       {["title" := VStr (run (Cheerio.query (sel ".client_do_you_mean_title_bar")
                                 ≫= Cheerio.text) h)]},
     h).
Proof. apply suggestions_record_eq. Qed.

(** X7. A page of source A that has the translation-head marker and not the
    full-definition marker gives the record of the single field [mt], the
    text of the [.client_sen_cn] elements; the page is left as it was, and
    since no [title] is set the lookup has no result. *)
Theorem translation_head_has_no_result h :
  present ".client_def_hd_hd" h = false →
  present ".client_trans_head" h = true →
  extract (js "bing") h
  = ({["mt" := VStr (run (Cheerio.query (sel ".client_sen_cn") ≫= Cheerio.text) h)]},
     h)
  ∧ no_result (run (extract (js "bing")) h) = true.
Proof.
  intros H1 H2. unfold present in H1, H2.
  assert (extract (js "bing") h
    = ({["mt" := VStr (run (Cheerio.query (sel ".client_sen_cn") ≫= Cheerio.text) h)]},
       h)) as Heq.
  { rewrite extract_bing.
    destruct (select_all (sel ".client_def_hd_hd") _); [|done].
    destruct (select_all (sel ".client_trans_head") _); [done|].
    unfold client_trans_head. rewrite readonly_bind_eq by readonly.
    cbn [mret M_ret]. by rewrite insert_empty. }
  split; [done|]. unfold run at 1. by rewrite Heq.
Qed.

(** X8. Whether a lookup has a result is decided by the text of the title
    marker alone: on a full-definition page and on a suggestion page of
    source A, and on a page of source B without typo marker, there is no
    result exactly when the title marker ([.client_def_hd_hd],
    [.client_do_you_mean_title_bar], [.keyword]) has no text, whatever else
    was extracted. *)
Theorem no_result_iff_empty_title h :
  (present ".client_def_hd_hd" h = true →
   no_result (run (extract (js "bing")) h)
   = negb (nonempty (run (Cheerio.query (sel ".client_def_hd_hd") ≫= Cheerio.text) h)))
  ∧ (present ".client_def_hd_hd" h = false →
     present ".client_trans_head" h = false →
     present ".client_do_you_mean_title_bar" h = true →
     no_result (run (extract (js "bing")) h)
     = negb (nonempty (run (Cheerio.query (sel ".client_do_you_mean_title_bar")
                              ≫= Cheerio.text) h)))
  ∧ (present ".error-typo" h = false →
     no_result (run (extract (js "youdao")) h)
     = negb (nonempty (run (Cheerio.query (sel ".keyword") ≫= Cheerio.text) h))).
Proof.
  unfold present. repeat split.
  - intros H1. unfold run at 1. rewrite extract_bing.
    destruct (select_all (sel ".client_def_hd_hd") _); [done|].
    fold (run (client_def_hd_hd ∅) h). unfold no_result.
    by rewrite client_def_hd_hd_title.
  - intros H1 H2 H3. unfold run at 1. rewrite extract_bing.
    destruct (select_all (sel ".client_def_hd_hd") _); [|done].
    destruct (select_all (sel ".client_trans_head") _); [|done].
    destruct (select_all (sel ".client_do_you_mean_title_bar") _); [done|].
    rewrite suggestions_record_eq. cbn [fst]. unfold no_result.
    by rewrite lookup_insert_ne, lookup_singleton_eq.
  - intros H1. unfold run at 1. rewrite extract_youdao.
    destruct (select_all (sel ".error-typo") _); [|done].
    fold (run (handle_youdao ∅) h).
    destruct (handle_youdao_fields ∅ h) as (sentence & translation & ->).
    cbn zeta. unfold no_result.
    by rewrite !lookup_insert_ne, lookup_insert_eq by done.
Qed.

(** X9. For a dictionary option that is neither bing nor youdao no
    extractor runs: the record stays empty, no page is touched, and the
    lookup has no result. *)
Theorem unknown_dictionary dict h :
  dict ≠ js "bing" → dict ≠ js "youdao" →
  extract dict h = (∅, h) ∧ no_result (run (extract dict) h) = true.
Proof.
  intros H1 H2.
  assert (extract dict h = (∅, h)) as Heq.
  { unfold extract. by rewrite !bool_decide_eq_false_2. }
  split; [done|]. unfold run. by rewrite Heq.
Qed.

End suggestions_and_dispatch.

(** ** The optional fields *)

Lemma trim_head t :
  match trim t with c :: _ => js_space c = false | [] => True end.
Proof.
  unfold trim. pose proof (trim_start_head t) as Hh.
  destruct (trim_end _) as [|c r] eqn:Et; [done|].
  apply trim_end_head in Et as [t0 Et]. by rewrite Et in Hh.
Qed.

Lemma normalize_of_text s c t :
  s = c :: t → js_space c = false → normalize s ≠ [].
Proof.
  intros -> Hc Hn. pose proof (normalize_text (c :: t)) as Hk.
  rewrite Hn in Hk. cbn in Hk. by rewrite Hc in Hk.
Qed.

Lemma inflection_forms_join h x l :
  inflection_forms h = x :: l → normalize (join (js ", ") (x :: l)) ≠ [].
Proof.
  intros Hl.
  assert (In x (inflection_forms h)) as Hin by (rewrite Hl; by left).
  unfold inflection_forms in Hin.
  apply List.filter_In in Hin as [Hin Hne].
  apply List.in_map_iff in Hin as (el & <- & _).
  pose proof (trim_head (run (Cheerio.text [el]) h)) as Hh.
  destruct (trim _) as [|c t]; [done|].
  destruct l as [|y l].
  - by apply (normalize_of_text _ c t).
  - by apply (normalize_of_text _ c (t ++ js ", " ++ join (js ", ") (y :: l))).
Qed.

Lemma concise_definitions_parts h :
  Forall (λ e, e.1 ≠ [] ∧ e.2 ≠ []) (concise_definitions h).
Proof.
  apply Forall_forall. intros [pos def] He. apply list_elem_of_In in He.
  unfold concise_definitions in He. apply List.filter_In in He as [_ He].
  apply andb_prop in He as [Hp Hd]. cbn in *. by destruct pos, def.
Qed.

Section optional.
Context `{Lib}.

(** C1, as the program has it.  The full-definition extractor of source A
    omits its empty fields: [phsym] is present only if the page has
    pronunciation-list items and the extracted text is not empty (as
    extracted: the text is not normalized), [cdef] only if the page has
    definition bars, as a non-empty sequence of pairs with two non-empty
    texts, [infs] only if the page has inflection markers and the extracted
    text is not empty after normalization, and [sentences] only if the page
    has sentence-list items, as a non-empty sequence.  The other extractors
    set their fields whatever the page holds: [list] is present exactly
    when the page of source B has the typo marker, with the text of the
    marker, the suggestion extractor always sets [defs], and the
    full-definition extractor of source B always sets [stars], [rank],
    [pattern], [prons], [basic], [discrimination], [sentence] and
    [translation]. *)
Theorem optional_fields h :
  (let result := run (client_def_hd_hd ∅) h in
   match result !! "phsym" with
   | Some v => ∃ s, v = VStr s ∧ s ≠ [] ∧ present ".client_def_hd_pn_list" h = true
   | None => True
   end
   ∧ match result !! "cdef" with
     | Some v => ∃ l, v = VArr (List.map cdef_entry l) ∧ l ≠ []
                      ∧ Forall (λ e, e.1 ≠ [] ∧ e.2 ≠ []) l
                      ∧ present ".client_def_container .client_def_bar" h = true
     | None => True
     end
   ∧ match result !! "infs" with
     | Some v => ∃ s, v = VStr s ∧ normalize s ≠ []
                      ∧ present ".client_word_change_word" h = true
     | None => True
     end
   ∧ match result !! "sentences" with
     | Some v => ∃ l, v = VArr l ∧ l ≠ [] ∧ present ".client_sentence_list" h = true
     | None => True
     end)
  ∧ run (extract (js "youdao")) h !! "list"
    = (if present ".error-typo" h
       then Some (VStr (run (Cheerio.query (sel ".error-typo") ≫= Cheerio.text) h))
       else None)
  ∧ is_Some (run (client_do_you_mean_title_bar ∅) h !! "defs")
  ∧ Forall (λ k, is_Some (run (handle_youdao ∅) h !! k))
      ["stars"; "rank"; "pattern"; "prons"; "basic"; "discrimination";
       "sentence"; "translation"].
Proof.
  split; [|split; [|split]].
  - cbn zeta. rewrite client_def_hd_hd_steps. cbn zeta.
    set (r0 := <["title" := _]> ∅).
    assert (r0 !! "phsym" = None) as H0 by done.
    assert (run (set_phsym r0) h !! "cdef" = None) as H1.
    { by rewrite set_phsym_frame. }
    assert (run (set_cdef (run (set_phsym r0) h)) h !! "infs" = None) as H2.
    { by rewrite set_cdef_frame, set_phsym_frame. }
    assert (run (set_infs (run (set_cdef (run (set_phsym r0) h)) h)) h
              !! "sentences" = None) as H3.
    { by rewrite set_infs_frame, set_cdef_frame, set_phsym_frame. }
    split; [|split; [|split]].
    + rewrite set_sentences_frame, set_infs_frame, set_cdef_frame by done.
      destruct (run (set_phsym r0) h !! "phsym") eqn:Hv; [|done].
      by eapply set_phsym_value.
    + rewrite set_sentences_frame, set_infs_frame by done.
      rewrite set_cdef_value by done. unfold present.
      fold (definition_bars h).
      pose proof (concise_definitions_parts h) as Hparts.
      destruct (concise_definitions h) as [|e l] eqn:Hc; [done|].
      exists (e :: l). split; [done|]. split; [done|]. split; [done|].
      unfold concise_definitions in Hc.
      by destruct (definition_bars h).
    + rewrite set_sentences_frame by done.
      rewrite set_infs_formula by done. unfold present.
      destruct (inflection_forms h) as [|x l] eqn:Hl; [done|].
      eexists. split; [done|]. split; [by apply (inflection_forms_join h)|].
      unfold inflection_forms in Hl.
      by destruct (select_all _ (document h)).
    + rewrite set_sentences_value, H3. unfold present.
      fold (sentence_lists h).
      destruct (sentence_lists h) as [|el els]; [done|].
      eexists. split; [done|]. split; [|done].
      intros Hl %(f_equal length). revert Hl.
      unfold run. rewrite cheerio_map_length. done.
  - unfold run at 1. rewrite extract_youdao, query_text_eq. unfold present.
    destruct (select_all (sel ".error-typo") _).
    + fold (run (handle_youdao ∅) h).
      destruct (handle_youdao_fields ∅ h) as (sentence & translation & ->).
      cbn zeta. by rewrite !lookup_insert_ne by done.
    + cbn [fst]. by rewrite lookup_singleton_eq.
  - unfold run, client_do_you_mean_title_bar.
    rewrite !readonly_bind_eq by readonly.
    rewrite bind_eq. cbn [mret M_ret fst].
    apply each_area_defs. by rewrite lookup_insert_eq.
  - destruct (handle_youdao_fields ∅ h) as (sentence & translation & ->).
    cbn zeta. repeat constructor; by simplify_map_eq.
Qed.

End optional.

(** ** Source B: what the fields hold *)

Lemma normalize_fixed s : normalize (normalize s) = normalize s.
Proof.
  unfold normalize at 1. unfold replace_spaces.
  rewrite collapsed_fixed by apply normalize_collapsed.
  unfold normalize. apply trim_idemp.
Qed.

(** A text without white space at its ends whose only white space is single
    spaces. *)
Lemma tidy_fixed t :
  collapsed t → trim_start t = t → trim_end t = t → normalize t = t.
Proof.
  intros Hc Hs He. unfold normalize, replace_spaces, trim.
  by rewrite collapsed_fixed, Hs, He.
Qed.

Lemma normalize_tidy s :
  collapsed (normalize s) ∧ trim_start (normalize s) = normalize s
  ∧ trim_end (normalize s) = normalize s.
Proof.
  split; [apply normalize_collapsed|]. unfold normalize, trim. split.
  - apply trim_start_trim_end, trim_start_head.
  - apply trim_end_idemp.
Qed.

Lemma trim_end_app p y : trim_end y = y → y ≠ [] → trim_end (p ++ y) = p ++ y.
Proof.
  intros Hy Hn. induction p as [|a p IH]; [done|].
  cbn [app trim_end]. rewrite IH. by destruct (p ++ y) eqn:E; [destruct p|].
Qed.

Lemma trim_end_tail a b r :
  trim_end (a :: b :: r) = a :: b :: r → trim_end (b :: r) = b :: r.
Proof.
  cbn [trim_end]. destruct (trim_end r) as [|c t].
  - destruct (js_space b); [destruct (js_space a)|]; congruence.
  - congruence.
Qed.

Lemma collapsed_join x y :
  collapsed x → trim_end x = x → x ≠ [] →
  collapsed y → match y with c :: _ => js_space c = false | [] => False end →
  collapsed (x ++ SPACE :: y).
Proof.
  intros Hx He Hn Hy Hh. induction x as [|a [|b r] IH]; [done| |].
  - cbn in He. destruct (js_space a) eqn:Ha; [done|].
    split; [congruence|]. split; [|done]. intros _. split; [done|].
    by destruct y.
  - destruct Hx as [Ha Hr]. split; [exact Ha|].
    apply IH; [done| |done]. by apply trim_end_tail in He.
Qed.

Lemma tidy_join (l : list jsstring) :
  Forall (λ x, x ≠ [] ∧ normalize x = x) l →
  normalize (join [SPACE] l) = join [SPACE] l.
Proof.
  intros Hl.
  assert (l ≠ [] → join [SPACE] l ≠ []
          ∧ collapsed (join [SPACE] l)
          ∧ trim_start (join [SPACE] l) = join [SPACE] l
          ∧ trim_end (join [SPACE] l) = join [SPACE] l) as Ht.
  { induction Hl as [|x r [Hx Hfix] Hr IH]; [done|]. intros _.
    assert (collapsed x ∧ trim_start x = x ∧ trim_end x = x) as (Hc & Hs & He).
    { rewrite <- Hfix. apply normalize_tidy. }
    destruct r as [|y r]; [done|].
    destruct IH as (Hn & Hjc & Hjs & Hje); [done|].
    change (join [SPACE] (x :: y :: r)) with (x ++ SPACE :: join [SPACE] (y :: r)).
    set (j := join [SPACE] (y :: r)) in *.
    assert (match j with c :: _ => js_space c = false | [] => False end) as Hh.
    { pose proof (trim_start_head j) as Hh. rewrite Hjs in Hh. by destruct j. }
    repeat split.
    - by destruct x.
    - by apply collapsed_join.
    - pose proof (trim_start_head x) as Hx0. rewrite Hs in Hx0.
      destruct x as [|a x]; [done|]. cbn [app trim_start]. by rewrite Hx0.
    - change (x ++ SPACE :: j) with (x ++ [SPACE] ++ j). rewrite app_assoc.
      by apply trim_end_app. }
  destruct l as [|x r]; [done|].
  destruct Ht as (_ & Hc & Hs & He); [done|]. by apply tidy_fixed.
Qed.

Lemma cheerio_map_forall {A B} (P : B → Prop) (fn : A → M B) els h :
  (∀ el h, P (fn el h).1) → Forall P (Cheerio.map fn els h).1.
Proof.
  intros Hfn. revert h. induction els as [|el r IH]; intros h; [constructor|].
  cbn [Cheerio.map]. rewrite !bind_eq. cbn [mret M_ret fst].
  constructor; [apply Hfn | apply IH].
Qed.

Section source_b.
Context `{Lib}.

(** [handle_youdao] in full: the record and the page it leaves. *)
Lemma handle_youdao_eq result h :
  let text_at h s := run (Cheerio.query (sel s) ≫= Cheerio.text) h in
  let texts_at s :=
    List.map (λ el, run (normalized_text el) h) (select_all (sel s) (document h)) in
  let sentences := Cheerio.map authority_item (authority_items h) h in
  handle_youdao result h =
  (<["translation" :=
       VStr (normalize (text_at sentences.2 "#fanyiToggle .trans-container"))]>
     (<["sentence" := VArr sentences.1]>
     (<["discrimination" := VStr (normalize (text_at h "#discriminate"))]>
     (<["basic" := VArr (List.map VStr
          (List.filter nonempty (texts_at "#phrsListTab .trans-container li")))]>
     (<["prons" := VStr (join (js " ")
          (List.filter nonempty (texts_at ".baav .pronounce")))]>
     (<["pattern" := VStr (normalize (text_at h ".pattern"))]>
     (<["rank" := VStr (text_at h ".rank")]>
     (<["stars" := stars_of
          (run (Cheerio.query (sel ".star") ≫= Cheerio.attr (js "class")) h)]>
     (<["title" := VStr (text_at h ".keyword")]> result)))))))),
   sentences.2).
Proof.
  cbn zeta. unfold handle_youdao, authority_items.
  pose proof normalized_text_readonly.
  do 5 (rewrite readonly_bind_eq by readonly).
  rewrite bind_eq, map_readonly_eq by done. cbn [fst snd].
  rewrite readonly_bind_eq by readonly.
  rewrite bind_eq, map_readonly_eq by done. cbn [fst snd].
  do 2 (rewrite readonly_bind_eq by readonly).
  rewrite bind_eq. rewrite readonly_bind_eq by readonly. reflexivity.
Qed.

Lemma normalized_text_eq el h :
  run (normalized_text el) h = normalize (run (Cheerio.text [el]) h).
Proof. reflexivity. Qed.

(** X10. The extractor of source B stores normalized texts: [pattern],
    [discrimination] and [translation] are strings that the normalizer
    leaves unchanged, and every entry of [basic] is such a string and is not
    empty. *)
Theorem source_b_texts_are_normalized h :
  let result := run (handle_youdao ∅) h in
  Forall (λ k, ∃ s, result !! k = Some (VStr s) ∧ normalize s = s)
    ["pattern"; "discrimination"; "translation"]
  ∧ Forall (λ v, ∃ s, v = VStr s ∧ s ≠ [] ∧ normalize s = s)
      (entries "basic" result).
Proof.
  cbn zeta. unfold run at 1 2, entries. rewrite handle_youdao_eq. cbn [fst].
  split.
  - repeat constructor; eexists; (split; [by simplify_map_eq|]);
      apply normalize_fixed.
  - rewrite !lookup_insert_ne, lookup_insert_eq by done.
    apply Forall_forall. intros v Hv. apply list_elem_of_In in Hv.
    apply List.in_map_iff in Hv as (s & <- & Hs).
    apply List.filter_In in Hs as [Hs Hne].
    apply List.in_map_iff in Hs as (el & <- & _).
    eexists. split; [done|]. split; [by intros E; rewrite E in Hne|].
    rewrite normalized_text_eq. apply normalize_fixed.
Qed.

(** X11. [prons] is itself a normalized text: the normalized texts of the
    pronunciation markers that are not empty, joined by single spaces, have
    no white space at the ends and no white space but single spaces, so the
    normalizer leaves [prons] unchanged. *)
Theorem prons_is_normalized h :
  ∃ s, run (handle_youdao ∅) h !! "prons" = Some (VStr s) ∧ normalize s = s.
Proof.
  unfold run. rewrite handle_youdao_eq. cbn [fst]. eexists.
  split; [by simplify_map_eq|]. apply tidy_join.
  apply Forall_forall. intros s Hs. apply list_elem_of_In in Hs.
  apply List.filter_In in Hs as [Hs Hne].
  apply List.in_map_iff in Hs as (el & <- & _).
  split; [by intros E; rewrite E in Hne|].
  rewrite normalized_text_eq. apply normalize_fixed.
Qed.

(** X12. [sentence] of source B is always present and has exactly one
    entry for every example item ([#authority .ol li]) of the page, without
    any cap, and every entry is a string. *)
Theorem sentence_one_per_item h :
  ∃ items,
    run (handle_youdao ∅) h !! "sentence" = Some (VArr items)
    ∧ length items = length (authority_items h)
    ∧ Forall (λ v, ∃ s, v = VStr s) items.
Proof.
  unfold run. rewrite handle_youdao_eq. cbn [fst]. eexists.
  split; [by rewrite !lookup_insert_ne, lookup_insert_eq by done|]. split.
  - apply cheerio_map_length.
  - apply cheerio_map_forall. intros el h'. unfold authority_item.
    rewrite !bind_eq. cbn [mret M_ret fst]. by eexists.
Qed.

(** X13. Only the sentence callbacks change the page.  The translation-head
    and suggestion extractors leave it as it was; the full-definition
    extractors leave it as their map over the sentence items leaves it, so
    a page without sentence-list items (source A) or without example items
    (source B) is not changed at all. *)
Theorem page_changes_only_in_sentences result h :
  (client_trans_head result h).2 = h
  ∧ (client_do_you_mean_title_bar result h).2 = h
  ∧ (client_def_hd_hd result h).2
    = (Cheerio.map sentence_item (sentence_lists h) h).2
  ∧ (handle_youdao result h).2
    = (Cheerio.map authority_item (authority_items h) h).2
  ∧ (sentence_lists h = [] → (client_def_hd_hd result h).2 = h)
  ∧ (authority_items h = [] → (handle_youdao result h).2 = h).
Proof.
  assert ((client_def_hd_hd result h).2
          = (Cheerio.map sentence_item (sentence_lists h) h).2) as Hf.
  { unfold client_def_hd_hd, sentence_lists.
    rewrite readonly_bind_eq by readonly.
    rewrite readonly_bind_eq by apply set_phsym_readonly.
    rewrite readonly_bind_eq by apply set_cdef_readonly.
    rewrite readonly_bind_eq by apply set_infs_readonly.
    rewrite bind_eq. cbn [mret M_ret snd]. unfold set_sentences.
    rewrite readonly_bind_eq by readonly.
    change (run (Cheerio.query ?s) h) with (select_all s (document h)).
    rewrite positive_length.
    destruct (select_all _ (document h)); [done|].
    by rewrite bind_eq. }
  assert ((handle_youdao result h).2
          = (Cheerio.map authority_item (authority_items h) h).2) as Hy.
  { by rewrite handle_youdao_eq. }
  split; [reflexivity|]. split.
  { unfold client_do_you_mean_title_bar.
    rewrite !readonly_bind_eq by readonly. rewrite bind_eq.
    by rewrite (each_area_eq _ _ []) by apply lookup_insert_eq. }
  split; [exact Hf|]. split; [exact Hy|]. split.
  - intros Hs. by rewrite Hf, Hs.
  - intros Hs. by rewrite Hy, Hs.
Qed.

End source_b.

(** ** The record and the environment *)

Lemma agree_refl {A} (m : M A) : agree m m.
Proof. by intros h. Qed.

Lemma agree_bind {A B} (m1 m2 : M A) (f1 f2 : A → M B) :
  agree m1 m2 → (∀ a, agree (f1 a) (f2 a)) → agree (m1 ≫= f1) (m2 ≫= f2).
Proof. intros Hm Hf h. rewrite !bind_eq, Hm. apply Hf. Qed.

Lemma agree_if {A} (b : bool) (m1 m2 n1 n2 : M A) :
  agree m1 m2 → agree n1 n2 → agree (if b then m1 else n1) (if b then m2 else n2).
Proof. by destruct b. Qed.

Lemma agree_map {A B} (fn1 fn2 : A → M B) els :
  (∀ el, agree (fn1 el) (fn2 el)) →
  agree (Cheerio.map fn1 els) (Cheerio.map fn2 els).
Proof.
  intros Hfn. induction els as [|el r IH]; [apply agree_refl|].
  cbn [Cheerio.map]. apply agree_bind; [apply Hfn|]. intros x.
  apply agree_bind; [apply IH|]. intros xs. apply agree_refl.
Qed.

Lemma agree_each {A} (fn1 fn2 : A → M unit) els :
  (∀ el, agree (fn1 el) (fn2 el)) →
  agree (Cheerio.each fn1 els) (Cheerio.each fn2 els).
Proof.
  intros Hfn. induction els as [|el r IH]; [apply agree_refl|].
  cbn [Cheerio.each]. apply agree_bind; [apply Hfn|]. intros _. apply IH.
Qed.

Section environments.
Variables L1 L2 : Lib.
Hypothesis same_parse : ∀ s, @parse L1 s = @parse L2 s.
Hypothesis same_serialize : ∀ l, @serialize L1 l = @serialize L2 l.
Hypothesis same_cyan : ∀ s, @cyan L1 s = @cyan L2 s.
Hypothesis same_dim : ∀ s, @dim L1 s = @dim L2 s.

Lemma agree_html els : agree (@Cheerio.html L1 els) (@Cheerio.html L2 els).
Proof.
  intros h. unfold Cheerio.html, gets. f_equal.
  destruct els as [|el els]; [done|].
  destruct (node_of el h); [|done]. cbn. by rewrite same_serialize.
Qed.

Lemma agree_put_in_place el content :
  agree (@Cheerio.put_in_place L1 el content) (@Cheerio.put_in_place L2 el content).
Proof. intros h. unfold Cheerio.put_in_place. by rewrite same_parse. Qed.

Lemma agree_replaceWith (fn1 fn2 : ref → M jsstring) els :
  (∀ el, agree (fn1 el) (fn2 el)) →
  agree (@Cheerio.replaceWith L1 fn1 els) (@Cheerio.replaceWith L2 fn2 els).
Proof.
  intros Hfn. unfold Cheerio.replaceWith. apply agree_each. intros el.
  apply agree_bind; [apply agree_refl|]. intros [|]; [|apply agree_refl].
  apply agree_bind; [apply Hfn|]. intros c. apply agree_put_in_place.
Qed.

Ltac agree_step known :=
  lazymatch goal with
  | |- agree (@mret _ _ _ _) _ => rewrite ?same_cyan, ?same_dim; apply agree_refl
  | |- agree (@mbind _ _ _ _ _ _) _ => apply agree_bind; [|intros ?]
  | |- agree (if _ then _ else _) _ => apply agree_if
  | |- agree (@Cheerio.html _ _) _ => apply agree_html
  | |- agree (@Cheerio.replaceWith _ _ _) _ => apply agree_replaceWith; intros ?
  | |- agree (@Cheerio.map _ _ _ _) _ => apply agree_map; intros ?
  | |- _ => first [known | apply agree_refl]
  end.

Lemma agree_sentence_item el :
  agree (@sentence_item L1 el) (@sentence_item L2 el).
Proof. unfold sentence_item. repeat agree_step fail. Qed.

Lemma agree_authority_item el :
  agree (@authority_item L1 el) (@authority_item L2 el).
Proof. unfold authority_item. repeat agree_step fail. Qed.

Lemma agree_client_def_hd_hd result :
  agree (@client_def_hd_hd L1 result) (@client_def_hd_hd L2 result).
Proof.
  unfold client_def_hd_hd, set_sentences.
  repeat agree_step
    ltac:(idtac; lazymatch goal with
          | |- agree (@sentence_item _ _) _ => apply agree_sentence_item
          end).
Qed.

Lemma agree_handle_youdao result :
  agree (@handle_youdao L1 result) (@handle_youdao L2 result).
Proof.
  unfold handle_youdao.
  repeat agree_step
    ltac:(idtac; lazymatch goal with
          | |- agree (@authority_item _ _) _ => apply agree_authority_item
          end).
Qed.

Lemma agree_extract dict : agree (@extract L1 dict) (@extract L2 dict).
Proof.
  unfold extract.
  repeat agree_step
    ltac:(idtac; lazymatch goal with
          | |- agree (@client_def_hd_hd _ _) _ => apply agree_client_def_hd_hd
          | |- agree (@handle_youdao _ _) _ => apply agree_handle_youdao
          end).
Qed.

End environments.

Lemma client_def_hd_hd_without_sentences `{Lib} result h :
  sentence_lists h = [] →
  client_def_hd_hd result h
  = (let title := run (Cheerio.query (sel ".client_def_hd_hd") ≫= Cheerio.text) h in
     let r1 := run (set_phsym (<["title" := VStr title]> result)) h in
     run (set_infs (run (set_cdef r1) h)) h, h).
Proof.
  intros Hs. unfold client_def_hd_hd.
  rewrite readonly_bind_eq by readonly.
  rewrite readonly_bind_eq by apply set_phsym_readonly.
  rewrite readonly_bind_eq by apply set_cdef_readonly.
  rewrite readonly_bind_eq by apply set_infs_readonly.
  rewrite bind_eq. unfold set_sentences.
  rewrite readonly_bind_eq by readonly.
  change (run (Cheerio.query ?s) h) with (select_all s (document h)).
  fold (sentence_lists h). by rewrite Hs.
Qed.

Lemma extract_without_sentences (L1 L2 : Lib) dict h :
  sentence_lists h = [] → authority_items h = [] →
  @extract L1 dict h = @extract L2 dict h.
Proof.
  intros Hs Ha. destruct (decide (dict = js "bing")) as [->|Hb].
  - rewrite !extract_bing.
    destruct (select_all (sel ".client_def_hd_hd") _); [done|].
    by rewrite !client_def_hd_hd_without_sentences.
  - destruct (decide (dict = js "youdao")) as [->|Hy].
    + rewrite !extract_youdao.
      destruct (select_all (sel ".error-typo") _); [|done].
      rewrite !handle_youdao_eq. cbn zeta. by rewrite Ha.
    + unfold extract. by rewrite !bool_decide_eq_false_2.
Qed.

(** C10, as the program has it.  The record is a function of the document,
    of the source and of the colour support: two runs, each parsing the
    text into a tree of its own (numbered from any free identity) that its
    sentence extractor changes in place, make the same record when their
    environments read the text as the same document and give the same
    strings for chalk's cyan and dim (and for the markup parser and
    serializer); nothing else of the environment reaches the record.  For a
    document without sentence items the record is the same in every
    environment. *)
Theorem record_depends_on_colour (L1 L2 : Lib) dict (page : jsstring) (k1 k2 : ref) :
  @load L1 page = @load L2 page →
  ((∀ s, @parse L1 s = @parse L2 s) →
   (∀ l, @serialize L1 l = @serialize L2 l) →
   (∀ s, @cyan L1 s = @cyan L2 s) →
   (∀ s, @dim L1 s = @dim L2 s) →
   run (@extract L1 dict) (boot_from k1 (@load L1 page))
   = run (@extract L2 dict) (boot_from k2 (@load L2 page)))
  ∧ (sentence_lists (boot (@load L1 page)) = [] →
     authority_items (boot (@load L1 page)) = [] →
     run (@extract L1 dict) (boot_from k1 (@load L1 page))
     = run (@extract L2 dict) (boot_from k2 (@load L2 page))).
Proof.
  intros Hload.
  assert (∀ (L : Lib) k, run (@extract L dict) (boot_from k (@load L page))
                         = run (@extract L dict) (boot (@load L page))) as Hk.
  { intros L k. unfold run. rewrite boot_from_shift.
    by rewrite (same_extract (H := L) k dict (boot (@load L page))). }
  rewrite (Hk L1 k1), (Hk L2 k2), <- Hload. unfold run. split.
  - intros Hp Hs Hc Hd. by rewrite (agree_extract L1 L2 Hp Hs Hc Hd dict).
  - intros Hs Ha. by rewrite (extract_without_sentences L1 L2 dict _ Hs Ha).
Qed.

(** ** What is printed *)

Lemma threw_and_then p q : threw (p >> q) = threw p || threw q.
Proof. unfold and_then. by destruct (threw p) eqn:E. Qed.

Lemma threw_when b p : threw (when b p) = b && threw p.
Proof. by destruct b. Qed.

Lemma and_then_nothing p : p >> nothing = p.
Proof.
  unfold and_then, nothing. destruct p as [l [|]]; cbn; [done|].
  by rewrite app_nil_r.
Qed.

Ltac lookup_side := apply (bool_decide_unpack _); by vm_compute.

Section printing.
Context `{Lib} `{Terminal}.

Lemma each_from_says (g : value → jsstring) fn i items :
  (∀ i a, a ∈ items → fn i a = say (g a)) →
  each_from i fn items = Printed (List.map g items) false.
Proof.
  revert i. induction items as [|a r IH]; intros i Hfn; [done|].
  cbn [each_from List.map]. rewrite Hfn by set_solver.
  rewrite IH by (intros; apply Hfn; set_solver). reflexivity.
Qed.

Lemma each_from_no_throw fn i items :
  Forall (λ a, ∀ i, threw (fn i a) = false) items →
  threw (each_from i fn items) = false.
Proof.
  intros Hfn. revert i. induction Hfn as [|a r Ha _ IH]; intros i; [done|].
  cbn [each_from]. by rewrite threw_and_then, Ha, IH.
Qed.

Lemma each_of_no_throw (P : value → Prop) fn v :
  truthy v = true → sequence_of P v →
  (∀ a i, P a → threw (fn i a) = false) →
  threw (each_of v fn) = false.
Proof.
  intros Ht Hv Hfn. destruct v as [[]|]; try done. cbn [each_of].
  apply each_from_no_throw. eapply Forall_impl; [exact Hv|].
  intros a Ha i. by apply Hfn.
Qed.

Lemma cdef_line_no_throw a : a ≠ VNull → threw (cdef_line a) = false.
Proof. by destruct a. Qed.

Lemma sentences_lines_no_throw i a : a ≠ VNull → threw (sentences_lines i a) = false.
Proof. by destruct a. Qed.

Lemma render_threw complete result :
  renderable result →
  threw (render complete result)
  = truthy (result !! "title") && complete && truthy (result !! "prons")
    && negb (is_some (prons_line result)).
Proof.
  intros (Hc & Hb & Hss & Hs). unfold render.
  destruct (truthy (result !! "title")); [|done]. cbn [negb andb].
  rewrite !threw_and_then, !threw_when, !threw_and_then. cbn [say threw orb].
  rewrite !orb_false_r.
  assert (truthy (result !! "cdef")
          && threw (each_of (result !! "cdef") (λ _ a, cdef_line a)) = false) as ->.
  { destruct (truthy (result !! "cdef")) eqn:Ht; [|done].
    apply (each_of_no_throw _ _ _ Ht Hc). intros a _. apply cdef_line_no_throw. }
  assert (truthy (result !! "basic")
          && threw (each_of (result !! "basic")
                      (λ _ a, say (js "    " ++ whiteBright (show (Some a)))))
          = false) as ->.
  { destruct (truthy (result !! "basic")) eqn:Ht; [|done].
    by apply (each_of_no_throw _ _ _ Ht Hb). }
  assert (complete && truthy (result !! "sentences")
          && threw (each_of (result !! "sentences") sentences_lines) = false) as ->.
  { destruct (complete && truthy (result !! "sentences")) eqn:Ht; [|done].
    apply andb_prop in Ht as [_ Ht].
    apply (each_of_no_throw _ _ _ Ht Hss). intros a i. apply sentences_lines_no_throw. }
  assert (complete && truthy (result !! "sentence")
          && threw (each_of (result !! "sentence") sentence_lines) = false) as ->.
  { destruct (complete && truthy (result !! "sentence")) eqn:Ht; [|done].
    apply andb_prop in Ht as [_ Ht].
    by apply (each_of_no_throw _ _ _ Ht Hs). }
  rewrite !orb_false_r.
  destruct complete, (truthy (result !! "prons")); cbn [andb];
    rewrite ?andb_false_r, ?orb_false_r; try done.
  by destruct (prons_line result).
Qed.

Lemma sentence_item_object el h : (sentence_item el h).1 ≠ VNull.
Proof. unfold sentence_item. rewrite !bind_eq. by cbn [mret M_ret fst]. Qed.

Lemma client_def_hd_hd_cdef h :
  run (client_def_hd_hd ∅) h !! "cdef"
  = match concise_definitions h with
    | [] => None
    | l => Some (VArr (List.map cdef_entry l))
    end.
Proof.
  rewrite client_def_hd_hd_steps. cbn zeta.
  rewrite set_sentences_frame, set_infs_frame by done.
  apply set_cdef_value. by rewrite set_phsym_frame.
Qed.

Lemma client_def_hd_hd_sentences h :
  run (client_def_hd_hd ∅) h !! "sentences"
  = match sentence_lists h with
    | [] => None
    | sens => Some (VArr (run (Cheerio.map sentence_item (take 4 sens)) h))
    end.
Proof.
  rewrite client_def_hd_hd_steps. cbn zeta. rewrite set_sentences_value.
  rewrite set_infs_frame, set_cdef_frame, set_phsym_frame by done.
  by rewrite lookup_insert_ne.
Qed.

Lemma client_def_hd_hd_absent h k :
  k ∉ ["title"; "phsym"; "cdef"; "infs"; "sentences"] →
  run (client_def_hd_hd ∅) h !! k = None.
Proof. intros Hk. by rewrite client_def_hd_hd_frame. Qed.

Lemma full_definition_renderable h : renderable (run (client_def_hd_hd ∅) h).
Proof.
  unfold renderable.
  rewrite client_def_hd_hd_cdef, client_def_hd_hd_sentences.
  rewrite (client_def_hd_hd_absent h "basic"),
    (client_def_hd_hd_absent h "sentence") by lookup_side.
  repeat split.
  - destruct (concise_definitions h) as [|e l]; [done|]. cbn [sequence_of].
    apply Forall_forall. intros a Ha. apply list_elem_of_In in Ha.
    by apply List.in_map_iff in Ha as (x & <- & _).
  - destruct (sentence_lists h); [done|]. cbn [sequence_of].
    apply cheerio_map_forall. apply sentence_item_object.
Qed.

Lemma extract_renderable dict h : renderable (run (extract dict) h).
Proof.
  unfold run. destruct (decide (dict = js "bing")) as [->|Hb].
  - rewrite extract_bing.
    destruct (select_all (sel ".client_def_hd_hd") _);
      [|apply full_definition_renderable].
    destruct (select_all (sel ".client_trans_head") _); [|by repeat split].
    destruct (select_all (sel ".client_do_you_mean_title_bar") _);
      [by repeat split|].
    rewrite suggestions_record_eq. by repeat split.
  - destruct (decide (dict = js "youdao")) as [->|Hy].
    + rewrite extract_youdao.
      destruct (select_all (sel ".error-typo") _); [|by repeat split].
      rewrite handle_youdao_eq. cbn [fst]. unfold renderable.
      simplify_map_eq. cbn [sequence_of].
      repeat split; by apply Forall_forall.
    + unfold extract. rewrite !bool_decide_eq_false_2 by done. by repeat split.
Qed.

(** X14. Rendering a record that an extractor made raises an exception in
    one case only: in complete mode, for a hit with pronunciations, when
    [repeat] refuses the star rating.  The sequences the renderer goes
    through are always sequences of items it can read, so a record of
    source A is always rendered to the end. *)
Theorem render_raises_only_in_repeat dict complete h :
  let result := run (extract dict) h in
  threw (render complete result)
  = truthy (result !! "title") && complete && truthy (result !! "prons")
    && negb (is_some (prons_line result))
  ∧ threw (render complete (run (extract (js "bing")) h)) = false.
Proof.
  cbn zeta. split; [apply render_threw, extract_renderable|].
  rewrite render_threw by apply extract_renderable.
  assert (run (extract (js "bing")) h !! "prons" = None) as ->.
  { unfold run. rewrite extract_bing.
    destruct (select_all (sel ".client_def_hd_hd") _);
      [|apply client_def_hd_hd_absent; lookup_side].
    destruct (select_all (sel ".client_trans_head") _); [|done].
    destruct (select_all (sel ".client_do_you_mean_title_bar") _); [done|].
    by rewrite suggestions_record_eq. }
  cbn [truthy]. by rewrite andb_false_r.
Qed.

Lemma render_no_title complete result :
  truthy (result !! "title") = false →
  render complete result = say (red (js "No result.")).
Proof. intros Ht. unfold render. by rewrite Ht. Qed.

(** X15. The typo message and the machine translation are extracted and
    never printed: for a page of source B with the typo marker, and for a
    page of source A with the translation-head marker and without the
    full-definition marker, the output is the single line "No result." in
    red, in both modes. *)
Theorem typo_and_translation_print_no_result complete h :
  (present ".error-typo" h = true →
   render complete (run (extract (js "youdao")) h) = say (red (js "No result.")))
  ∧ (present ".client_def_hd_hd" h = false →
     present ".client_trans_head" h = true →
     render complete (run (extract (js "bing")) h) = say (red (js "No result."))).
Proof.
  unfold present. split.
  - intros H1. apply render_no_title. unfold run. rewrite extract_youdao.
    by destruct (select_all (sel ".error-typo") _).
  - intros H1 H2. apply render_no_title. unfold run. rewrite extract_bing.
    destruct (select_all (sel ".client_def_hd_hd") _); [|done].
    by destruct (select_all (sel ".client_trans_head") _).
Qed.

(** X16. The suggestions are extracted and never printed: for a suggestion
    page of source A the output is a single empty line when the
    suggestion-title marker has a text, and the line "No result." when it
    has none, in both modes. *)
Theorem suggestions_print_an_empty_line complete h :
  present ".client_def_hd_hd" h = false →
  present ".client_trans_head" h = false →
  present ".client_do_you_mean_title_bar" h = true →
  render complete (run (extract (js "bing")) h)
  = if nonempty (run (Cheerio.query (sel ".client_do_you_mean_title_bar")
                        ≫= Cheerio.text) h)
    then say [] else say (red (js "No result.")).
Proof.
  unfold present. intros H1 H2 H3. unfold run at 1. rewrite extract_bing.
  destruct (select_all (sel ".client_def_hd_hd") _); [|done].
  destruct (select_all (sel ".client_trans_head") _); [|done].
  destruct (select_all (sel ".client_do_you_mean_title_bar") _); [done|].
  rewrite suggestions_record_eq. cbn [fst]. unfold render.
  rewrite lookup_insert_ne, lookup_singleton_eq by done. cbn [truthy].
  destruct (nonempty _); [|done]. cbn [negb].
  rewrite !lookup_insert_ne, !lookup_singleton_ne by done.
  cbn [truthy]. rewrite !andb_false_r. reflexivity.
Qed.

(** X17. The renderer reads eleven fields, and only [cdef] and [basic]
    (behind the test of [title]) without the complete option: two records
    that agree on these fields are printed alike.  Nothing of [mt], [defs],
    [list], [discrimination] and [translation] is ever printed. *)
Theorem render_reads_only complete (r r' : record) :
  (∀ k, k ∈ rendered_fields complete → r !! k = r' !! k) →
  render complete r = render complete r'.
Proof.
  intros Hk. unfold render, prons_line.
  rewrite (Hk "title"), (Hk "cdef"), (Hk "basic") by (destruct complete; set_solver).
  destruct complete; [|done].
  rewrite (Hk "phsym"), (Hk "prons"), (Hk "rank"), (Hk "stars"), (Hk "infs"),
    (Hk "pattern"), (Hk "sentences"), (Hk "sentence") by set_solver.
  reflexivity.
Qed.

(** X18. Without the complete option a full-definition page of source A
    with a title is printed as an empty line, then one line for every
    concise definition, in page order (four spaces, the part of speech in
    cyan, a space, the definition in white), then an empty line; when there
    is no concise definition only the first empty line is printed. *)
Theorem default_output_of_full_definition h :
  present ".client_def_hd_hd" h = true →
  run (Cheerio.query (sel ".client_def_hd_hd") ≫= Cheerio.text) h ≠ [] →
  render false (run (extract (js "bing")) h)
  = Printed
      ([] :: match concise_definitions h with
             | [] => []
             | l => List.map (λ e, js "    " ++ cyanBright e.1 ++ js " "
                                     ++ whiteBright e.2) l ++ [[]]
             end)
      false.
Proof.
  unfold present. intros H1 Ht. unfold run at 1. rewrite extract_bing.
  destruct (select_all (sel ".client_def_hd_hd") _); [done|].
  fold (run (client_def_hd_hd ∅) h). unfold render.
  rewrite client_def_hd_hd_title, client_def_hd_hd_cdef.
  rewrite (client_def_hd_hd_absent h "basic") by lookup_side.
  cbn [truthy andb when].
  destruct (run (Cheerio.query _ ≫= Cheerio.text) h) as [|c t]; [done|].
  cbn [nonempty negb]. rewrite !and_then_nothing.
  destruct (concise_definitions h) as [|e0 l0]; [done|].
  cbn [truthy when each_of].
  rewrite (each_from_says
             (λ a, match a with
                   | VObj [(_, VStr p); (_, VStr d)] =>
                       js "    " ++ cyanBright p ++ js " " ++ whiteBright d
                   | _ => []
                   end)).
  2:{ intros i a Ha. apply list_elem_of_In in Ha.
      by apply List.in_map_iff in Ha as (x & <- & _). }
  rewrite List.map_map. reflexivity.
Qed.

End printing.

Section printing_source_b.
Context `{Lib} `{Terminal}.

Lemma handle_youdao_title h :
  run (handle_youdao ∅) h !! "title"
  = Some (VStr (run (Cheerio.query (sel ".keyword") ≫= Cheerio.text) h)).
Proof. unfold run. rewrite handle_youdao_eq. cbn [fst]. by simplify_map_eq. Qed.

Lemma handle_youdao_basic h :
  run (handle_youdao ∅) h !! "basic" = Some (VArr (List.map VStr (basic_texts h))).
Proof. unfold run. rewrite handle_youdao_eq. cbn [fst]. by simplify_map_eq. Qed.

Lemma handle_youdao_cdef h : run (handle_youdao ∅) h !! "cdef" = None.
Proof. unfold run. rewrite handle_youdao_eq. cbn [fst]. by simplify_map_eq. Qed.

(** X19. Without the complete option a hit of source B is printed as an
    empty line, then one line for every phrase of [basic] (four spaces and
    the phrase in white), then an empty line: since [basic] is always
    present, the second empty line is printed also when the page has no
    phrase. *)
Theorem default_output_of_source_b h :
  present ".error-typo" h = false →
  run (Cheerio.query (sel ".keyword") ≫= Cheerio.text) h ≠ [] →
  render false (run (extract (js "youdao")) h)
  = Printed ([] :: List.map (λ s, js "    " ++ whiteBright s) (basic_texts h)
                ++ [[]])
            false.
Proof.
  unfold present. intros H1 Ht. unfold run at 1. rewrite extract_youdao.
  destruct (select_all (sel ".error-typo") _); [|done].
  fold (run (handle_youdao ∅) h). unfold render. cbn [andb when].
  rewrite handle_youdao_title, handle_youdao_cdef, handle_youdao_basic.
  destruct (run (Cheerio.query _ ≫= Cheerio.text) h) as [|c t]; [done|].
  cbn [truthy nonempty negb when each_of]. rewrite !and_then_nothing.
  rewrite (each_from_says
             (λ a, js "    " ++ whiteBright (show (Some a)))) by done.
  rewrite List.map_map. reflexivity.
Qed.

End printing_source_b.

(** ** The further properties at concrete pages *)

Lemma translation_head_has_no_result_witness :
  extract (H := plain) (js "bing") (boot translation_page)
  = ({["mt" := VStr [20320; 22909]%N]}, boot translation_page)
  ∧ no_result (run (extract (H := plain) (js "bing")) (boot translation_page))
    = true.
Proof.
  apply (translation_head_has_no_result (H := plain) (boot translation_page));
    reflexivity.
Defined.

Lemma no_result_iff_empty_title_witness :
  no_result (run (extract (H := plain) (js "bing")) (boot untitled_page)) = true
  ∧ no_result (run (extract (H := plain) (js "bing")) (boot suggestion_page))
    = false
  ∧ no_result (run (extract (H := plain) (js "youdao")) (boot star4_page))
    = false.
Proof.
  split; [|split].
  - exact (proj1 (no_result_iff_empty_title (H := plain) (boot untitled_page))
             eq_refl).
  - exact (proj1 (proj2 (no_result_iff_empty_title (H := plain)
                           (boot suggestion_page)))
             eq_refl eq_refl eq_refl).
  - exact (proj2 (proj2 (no_result_iff_empty_title (H := plain)
                           (boot star4_page)))
             eq_refl).
Defined.

Lemma unknown_dictionary_witness :
  extract (H := plain) (js "google") (boot hello_page) = (∅, boot hello_page)
  ∧ no_result (run (extract (H := plain) (js "google")) (boot hello_page)) = true.
Proof.
  apply (unknown_dictionary (H := plain) (js "google") (boot hello_page));
    apply (bool_decide_unpack _); vm_compute; exact I.
Defined.

Lemma page_changes_only_in_sentences_witness :
  (client_def_hd_hd (H := plain) ∅ (boot hello_page)).2 = boot hello_page
  ∧ (handle_youdao (H := plain) ∅ (boot star4_page)).2 = boot star4_page.
Proof.
  split.
  - exact (proj1 (proj2 (proj2 (proj2 (proj2
             (page_changes_only_in_sentences (H := plain) ∅ (boot hello_page))))))
             eq_refl).
  - exact (proj2 (proj2 (proj2 (proj2 (proj2
             (page_changes_only_in_sentences (H := plain) ∅ (boot star4_page))))))
             eq_refl).
Defined.

Lemma typo_and_translation_print_no_result_witness :
  render (H := plain) (H0 := plain_terminal) true
         (run (extract (H := plain) (js "youdao")) (boot typo_page))
  = say (js "No result.")
  ∧ render (H := plain) (H0 := plain_terminal) true
           (run (extract (H := plain) (js "bing")) (boot translation_page))
    = say (js "No result.").
Proof.
  split.
  - exact (proj1 (typo_and_translation_print_no_result
                    (H := plain) (H0 := plain_terminal) true (boot typo_page))
             eq_refl).
  - exact (proj2 (typo_and_translation_print_no_result
                    (H := plain) (H0 := plain_terminal) true
                    (boot translation_page))
             eq_refl eq_refl).
Defined.

Lemma suggestions_print_an_empty_line_witness :
  render (H := plain) (H0 := plain_terminal) true
         (run (extract (H := plain) (js "bing")) (boot suggestion_page))
  = say [].
Proof.
  exact (suggestions_print_an_empty_line (H := plain) (H0 := plain_terminal)
           true (boot suggestion_page) eq_refl eq_refl eq_refl).
Defined.

Lemma render_reads_only_witness :
  render (H := plain) (H0 := plain_terminal) true
         (<["list" := VStr (js "typo")]> {["title" := VStr (js "hello")]})
  = render (H := plain) (H0 := plain_terminal) true
           {["title" := VStr (js "hello")]}.
Proof.
  apply (render_reads_only (H := plain) (H0 := plain_terminal)).
  intros k Hk. apply lookup_insert_ne. intros <-.
  apply (bool_decide_pack _) in Hk. vm_compute in Hk. exact Hk.
Defined.

Lemma default_output_of_full_definition_witness :
  render (H := plain) (H0 := plain_terminal) false
         (run (extract (H := plain) (js "bing")) (boot hello_page))
  = Printed [[]; js "    int. used as a greeting"; []] false.
Proof.
  apply (default_output_of_full_definition (H := plain) (H0 := plain_terminal)
           (boot hello_page)); [reflexivity|]. vm_compute. discriminate.
Defined.

Lemma default_output_of_source_b_witness :
  render (H := plain) (H0 := plain_terminal) false
         (run (extract (H := plain) (js "youdao")) (boot phrase_page))
  = Printed [[]; js "    int. hi"; js "    n. a greeting"; []] false.
Proof.
  apply (default_output_of_source_b (H := plain) (H0 := plain_terminal)
           (boot phrase_page)); [reflexivity|]. vm_compute. discriminate.
Defined.

(** In complete mode the page with a rating of four stars is printed with
    its stars, and raises an exception on a terminal whose strings are too
    short for them. *)
Example four_stars :
  render (H := plain) (H0 := plain_terminal) true
         (run (extract (H := plain) (js "youdao")) (boot phrase_page))
  = Printed [[]; js "    hello  US [h]  " ++ replicate 4 9733%N; [];
             js "    int. hi"; js "    n. a greeting"; [];
             js "     " ++ [20363; 21477]%N ++ js " "; []] false
  ∧ render (H := plain) (H0 := short_terminal) true
           (run (extract (H := plain) (js "youdao")) (boot phrase_page))
    = Printed [[]] true.
Proof. split; by vm_compute. Qed.

(** ** The colours in the record *)

(** The example of source B in the two environments: the citation is
    dimmed and the marked word is cyan when the colours are on. *)
Example sentence_in_two_environments :
  run (extract (H := plain) (js "youdao")) (boot example_page) !! "sentence"
  = Some (VArr [VStr (js "say hello   (a source)")])
  ∧ run (extract (H := coloured) (js "youdao")) (boot example_page) !! "sentence"
    = Some (VArr [VStr (js "say " ++ [ESC] ++ js "[36mhello" ++ [ESC] ++ js "[39m   "
                        ++ [ESC] ++ js "[2m(a source)" ++ [ESC] ++ js "[22m")]).
Proof. split; by vm_compute. Qed.

(** C10 as stated fails: for one document and one source the record made
    where the colours are on is not the one made where they are off (chalk
    switches them by the terminal), on source B and on source A. *)
Lemma colour_reaches_the_record :
  run (extract (H := plain) (js "youdao")) (boot example_page)
  ≠ run (extract (H := coloured) (js "youdao")) (boot example_page)
  ∧ run (extract (H := plain) (js "bing")) (boot searched_page)
    ≠ run (extract (H := coloured) (js "bing")) (boot searched_page).
Proof.
  split.
  - intros Heq. apply (f_equal (lookup "sentence")) in Heq.
    vm_compute in Heq. discriminate Heq.
  - intros Heq. apply (f_equal (lookup "sentences")) in Heq.
    vm_compute in Heq. discriminate Heq.
Qed.

Lemma record_depends_on_colour_witness :
  run (extract (H := reading example_page plain) (js "youdao"))
      (boot_from 0 (load (Lib := reading example_page plain) (js "<html>")))
  = run (extract (H := reading example_page plain_but_red) (js "youdao"))
        (boot_from 7 (load (Lib := reading example_page plain_but_red) (js "<html>")))
  ∧ run (extract (H := reading hello_page plain) (js "bing"))
        (boot_from 0 (load (Lib := reading hello_page plain) (js "<html>")))
    = run (extract (H := reading hello_page coloured) (js "bing"))
          (boot_from 3 (load (Lib := reading hello_page coloured) (js "<html>"))).
Proof.
  split.
  - apply (proj1 (record_depends_on_colour
                    (reading example_page plain) (reading example_page plain_but_red)
                    (js "youdao") (js "<html>") 0 7 eq_refl));
      intros; reflexivity.
  - apply (proj2 (record_depends_on_colour
                    (reading hello_page plain) (reading hello_page coloured)
                    (js "bing") (js "<html>") 0 3 eq_refl));
      reflexivity.
Defined.
